(** * website-scrapper: the list processor, the change detector and the
      output writer of [tempCodeRunnerFile.py], embedded in Rocq.

    Python values are modelled as follows.
    - [str] is a list of Unicode code points ([N]); [bytes] is a list of
      [Byte.byte].
    - a BeautifulSoup element is seen only through [get_text()], so a [tag]
      is a record holding that text.
    - the dict built for a movie has the three fixed keys [rank], [title],
      [description]; it is a record [movie].
    - [list.sort(key=...)] is a stable sort that compares keys with [<]
      only; it is modelled by a stable insertion sort, which returns the same
      list as any stable sort.
    - the file system is reduced to the one file the program reads back,
      [CACHE_FILE], together with a trace of the effects performed. *)

From Stdlib Require Import List Arith NArith ZArith Lia Bool String Ascii.
From Stdlib Require Import Permutation Sorted.
From Stdlib Require DecimalNat DecimalFacts.
Import ListNotations.

(* ------------------------------------------------------------------ *)
(** * Part I. Definitions *)
(* ------------------------------------------------------------------ *)

(** ** Text *)

Definition char := N.
Definition str := list char.

(** Code points of an ASCII literal, used to write the program's string
    constants. *)
Definition txt (s : string) : str :=
  map N_of_ascii (list_ascii_of_string s).
Arguments txt s%_string.

Definition char_eqb (a b : char) : bool := N.eqb a b.

Fixpoint str_eqb (a b : str) : bool :=
  match a, b with
  | [], [] => true
  | x :: a', y :: b' => char_eqb x y && str_eqb a' b'
  | _, _ => false
  end.

(** [a < b] on [str]: lexicographic on code points. *)
Fixpoint str_ltb (a b : str) : bool :=
  match a, b with
  | _, [] => false
  | [], _ :: _ => true
  | x :: a', y :: b' =>
      if N.ltb x y then true
      else if N.ltb y x then false
      else str_ltb a' b'
  end.

(** [a <= b] on [str], that is [not (b < a)]. *)
Definition str_leb (a b : str) : bool := negb (str_ltb b a).

(** [str.isspace] on one code point: the code points Python treats as
    white space. *)
Definition isspace (c : char) : bool :=
  ((9 <=? c) && (c <=? 13) || (28 <=? c) && (c <=? 32)
   || (c =? 133) || (c =? 160) || (c =? 5760)
   || (8192 <=? c) && (c <=? 8202)
   || (c =? 8232) || (c =? 8233) || (c =? 8239) || (c =? 8287)
   || (c =? 12288))%N.

Fixpoint lstrip (s : str) : str :=
  match s with
  | [] => []
  | c :: s' => if isspace c then lstrip s' else s
  end.

Definition rstrip (s : str) : str := rev (lstrip (rev s)).

(** [s.strip()] *)
Definition strip (s : str) : str := rstrip (lstrip s).

Fixpoint starts_with (p s : str) : bool :=
  match p, s with
  | [], _ => true
  | _ :: _, [] => false
  | x :: p', y :: s' => char_eqb x y && starts_with p' s'
  end.

(** [needle in hay] on [str]: [needle] occurs as a contiguous run. *)
Fixpoint str_in (needle hay : str) : bool :=
  starts_with needle hay
  || match hay with
     | [] => false
     | _ :: hay' => str_in needle hay'
     end.

(** [str.lower] on ASCII text.  The full Unicode case table is not
    reproduced: the processor below takes the lowering function as a
    parameter, and this one instantiates it on ASCII inputs. *)
Definition ascii_lower_char (c : char) : char :=
  if ((65 <=? c) && (c <=? 90))%N then (c + 32)%N else c.

Definition ascii_lower (s : str) : str := map ascii_lower_char s.

(** ** Records *)

Record tag := { get_text : str }.

Record movie := { rank : nat; title : str; description : str }.

(** ** [list.sort(key=...)] *)

Section Sort.
Context {A K : Type}.
Variable ltb : K -> K -> bool.
Variable key : A -> K.

(** [x] is placed after the elements whose key is smaller and before the
    first element whose key is not: equal keys keep their order. *)
Fixpoint insert_by (x : A) (l : list A) : list A :=
  match l with
  | [] => [x]
  | y :: l' =>
      if ltb (key y) (key x) then y :: insert_by x l' else x :: l
  end.

Definition list_sort (l : list A) : list A :=
  fold_right insert_by [] l.
End Sort.

(** ** The list processor: [sort_entries] *)

(** [enumerate(l, start)] *)
Fixpoint enumerate {A : Type} (start : nat) (l : list A) : list (nat * A) :=
  match l with
  | [] => []
  | x :: l' => (start, x) :: enumerate (S start) l'
  end.

(** [zip(entries[::-1], descriptions[::-1])] *)
Definition paired (entries descriptions : list tag) : list (tag * tag) :=
  combine (rev entries) (rev descriptions).

Definition make_movie (p : nat * (tag * tag)) : movie :=
  let '(r, (entry, desc)) := p in
  {| rank := r;
     title := strip (get_text entry);
     description := strip (get_text desc) |}.

(** The [for] loop of [sort_entries]: the list [movies] before sorting. *)
Definition build_movies (entries descriptions : list tag) : list movie :=
  map make_movie (enumerate 1 (paired entries descriptions)).

(** The two [if] branches that sort [movies] in place. *)
Definition sort_movies (sort_by : str) (movies : list movie) : list movie :=
  if str_eqb sort_by (txt "title") then list_sort str_ltb title movies
  else if str_eqb sort_by (txt "rank") then list_sort Nat.ltb rank movies
  else movies.

Definition sort_entries (entries descriptions : list tag) (sort_by : str)
  : list movie :=
  sort_movies sort_by (build_movies entries descriptions).

(** ** The filter step of [main] *)

Section Filter.
(** [str.lower] *)
Variable lower : str -> str.

(** [k.lower() in s.lower()] *)
Definition contains_ci (k s : str) : bool := str_in (lower k) (lower s).

(** [if args.filter: entries = [entry for entry in entries if ...]];
    [None] is an absent [--filter], and an empty keyword is falsy. *)
Definition main_filter (filter : option str) (entries : list tag)
  : list tag :=
  match filter with
  | None => entries
  | Some [] => entries
  | Some kw =>
      List.filter (fun entry => contains_ci kw (get_text entry)) entries
  end.

(** Lines 107-110 of [main]: filter, then [sort_entries]. *)
Definition main_list (filter : option str) (sort : str)
           (entries descriptions : list tag) : list movie :=
  sort_entries (main_filter filter entries) descriptions sort.
End Filter.

(** ** [hashlib.md5(...).hexdigest()]

    The digest of RFC 1321 on 32-bit words held in [Z], every addition
    reduced modulo [2^32]. *)

Module MD5.
Local Open Scope Z_scope.

Definition mask32 (x : Z) : Z := Z.land x 0xffffffff.
Definition add32 (x y : Z) : Z := mask32 (x + y).
Definition not32 (x : Z) : Z := Z.lxor x 0xffffffff.
Definition rotl32 (x n : Z) : Z :=
  mask32 (Z.lor (Z.shiftl x n) (Z.shiftr x (32 - n))).

Definition K : list Z :=
  [0xd76aa478; 0xe8c7b756; 0x242070db; 0xc1bdceee;
   0xf57c0faf; 0x4787c62a; 0xa8304613; 0xfd469501;
   0x698098d8; 0x8b44f7af; 0xffff5bb1; 0x895cd7be;
   0x6b901122; 0xfd987193; 0xa679438e; 0x49b40821;
   0xf61e2562; 0xc040b340; 0x265e5a51; 0xe9b6c7aa;
   0xd62f105d; 0x02441453; 0xd8a1e681; 0xe7d3fbc8;
   0x21e1cde6; 0xc33707d6; 0xf4d50d87; 0x455a14ed;
   0xa9e3e905; 0xfcefa3f8; 0x676f02d9; 0x8d2a4c8a;
   0xfffa3942; 0x8771f681; 0x6d9d6122; 0xfde5380c;
   0xa4beea44; 0x4bdecfa9; 0xf6bb4b60; 0xbebfbc70;
   0x289b7ec6; 0xeaa127fa; 0xd4ef3085; 0x04881d05;
   0xd9d4d039; 0xe6db99e5; 0x1fa27cf8; 0xc4ac5665;
   0xf4292244; 0x432aff97; 0xab9423a7; 0xfc93a039;
   0x655b59c3; 0x8f0ccc92; 0xffeff47d; 0x85845dd1;
   0x6fa87e4f; 0xfe2ce6e0; 0xa3014314; 0x4e0811a1;
   0xf7537e82; 0xbd3af235; 0x2ad7d2bb; 0xeb86d391].

Definition S : list Z :=
  [7; 12; 17; 22; 7; 12; 17; 22; 7; 12; 17; 22; 7; 12; 17; 22;
   5; 9; 14; 20; 5; 9; 14; 20; 5; 9; 14; 20; 5; 9; 14; 20;
   4; 11; 16; 23; 4; 11; 16; 23; 4; 11; 16; 23; 4; 11; 16; 23;
   6; 10; 15; 21; 6; 10; 15; 21; 6; 10; 15; 21; 6; 10; 15; 21].

(** Little-endian bytes of a [w]-byte word. *)
Fixpoint le_bytes (w : nat) (x : Z) : list Z :=
  match w with
  | O => []
  | Datatypes.S w' => Z.land x 0xff :: le_bytes w' (Z.shiftr x 8)
  end.

Fixpoint le_word (bs : list Z) : Z :=
  match bs with
  | [] => 0
  | b :: bs' => b + Z.shiftl (le_word bs') 8
  end.

(** The message followed by [0x80], zeros up to 56 modulo 64, and the
    bit length on 64 bits. *)
Definition pad (msg : list Z) : list Z :=
  let n := Z.of_nat (List.length msg) in
  let zeros := Z.to_nat ((55 - n) mod 64) in
  msg ++ [0x80] ++ repeat 0 zeros ++ le_bytes 8 (Z.land (8 * n) 0xffffffffffffffff).

Fixpoint chunks (fuel size : nat) (l : list Z) : list (list Z) :=
  match fuel with
  | O => []
  | Datatypes.S fuel' =>
      match l with
      | [] => []
      | _ => firstn size l :: chunks fuel' size (skipn size l)
      end
  end.

Definition words (block : list Z) : list Z :=
  map le_word (chunks 16 4 block).

Record state := { a : Z; b : Z; c : Z; d : Z }.

Definition init : state :=
  {| a := 0x67452301; b := 0xefcdab89; c := 0x98badcfe; d := 0x10325476 |}.

Definition step (m : list Z) (st : state) (i : nat) : state :=
  let zi := Z.of_nat i in
  let '(f, g) :=
    if zi <? 16 then
      (Z.lor (Z.land (b st) (c st)) (Z.land (not32 (b st)) (d st)), zi)
    else if zi <? 32 then
      (Z.lor (Z.land (d st) (b st)) (Z.land (not32 (d st)) (c st)),
       (5 * zi + 1) mod 16)
    else if zi <? 48 then
      (Z.lxor (Z.lxor (b st) (c st)) (d st), (3 * zi + 5) mod 16)
    else
      (Z.lxor (c st) (Z.lor (b st) (not32 (d st))), (7 * zi) mod 16) in
  let f' :=
    add32 (add32 (add32 f (a st)) (nth i K 0)) (nth (Z.to_nat g) m 0) in
  {| a := d st; d := c st; c := b st;
     b := add32 (b st) (rotl32 f' (nth i S 0)) |}.

Definition compress (st : state) (block : list Z) : state :=
  let st' := fold_left (step (words block)) (seq 0 64) st in
  {| a := add32 (a st) (a st'); b := add32 (b st) (b st');
     c := add32 (c st) (c st'); d := add32 (d st) (d st') |}.

Definition digest (msg : list Z) : list Z :=
  let p := pad msg in
  let st := fold_left compress (chunks (List.length p) 64 p) init in
  le_bytes 4 (a st) ++ le_bytes 4 (b st) ++ le_bytes 4 (c st)
  ++ le_bytes 4 (d st).

Definition hex_digit (x : Z) : N :=
  Z.to_N (if x <? 10 then 48 + x else 87 + x).

Definition hex (bs : list Z) : list N :=
  flat_map (fun x => [hex_digit (Z.shiftr x 4); hex_digit (Z.land x 0xf)]) bs.
End MD5.

Definition bytes := list Byte.byte.

Definition md5_hexdigest (content : bytes) : str :=
  MD5.hex (MD5.digest (map (fun x => Z.of_N (Byte.to_N x)) content)).

(** ** Exceptions and results *)

(** The exception classes the program meets.  [IOError] is [OSError];
    [UnicodeEncodeError] derives from [ValueError], not from [OSError]. *)
Inductive exn :=
| IOError (e : str)
| UnicodeEncodeError (c : char)
| RequestException (e : str).

(** [isinstance(x, IOError)] *)
Definition is_IOError (x : exn) : bool :=
  match x with
  | IOError _ => true
  | _ => false
  end.

(** How a call ends: it returns, it leaves the process through
    [sys.exit(msg)], or an exception propagates out of it. *)
Inductive result (A : Type) :=
| Return (v : A)
| SysExit (msg : str)
| Raised (x : exn).
Arguments Return {A} v.
Arguments SysExit {A} msg.
Arguments Raised {A} x.

(** ** The change detector: [check_for_updates] *)

Inductive event :=
| Print (s : str)
| ReadCache
| WriteCache (content : str).

(** [cache_file] is the content of [CACHE_FILE], [None] when
    [os.path.exists] is false; [trace] lists the effects so far, oldest
    first. *)
Record world := { cache_file : option str; trace : list event }.

Definition emit (e : event) (w : world) : world :=
  {| cache_file := cache_file w; trace := trace w ++ [e] |}.

Definition print (s : str) (w : world) : world := emit (Print s) w.

(** [with open(CACHE_FILE, "w") as cache: cache.write(s)] *)
Definition write_cache (s : str) (w : world) : world :=
  {| cache_file := Some s; trace := trace w ++ [WriteCache s] |}.

(** What [requests.get] followed by [raise_for_status] gives: the body, or
    a [RequestException] with its message. *)
Inductive response :=
| Body (content : bytes)
| Failed (e : str).

Definition check_for_updates (r : response) (w : world)
  : result bool * world :=
  match r with
  | Failed e => (SysExit (txt "Failed to check for updates: " ++ e), w)
  | Body content =>
      let content_hash := md5_hexdigest content in
      match cache_file w with
      | Some cached_hash =>
          let w := emit ReadCache w in
          if str_eqb cached_hash content_hash then
            (Return false, print (txt "No updates found.") w)
          else
            let w := write_cache content_hash w in
            (Return true, print (txt "Updates found. Fetching new data.") w)
      | None => (Return true, write_cache content_hash w)
      end
  end.

(** ** The output writer: [save_file] and [display_list] *)

(** [str(n)] for a non-negative [int]. *)
Fixpoint uint_str (d : Decimal.uint) : str :=
  match d with
  | Decimal.Nil => []
  | Decimal.D0 d' => 48%N :: uint_str d'
  | Decimal.D1 d' => 49%N :: uint_str d'
  | Decimal.D2 d' => 50%N :: uint_str d'
  | Decimal.D3 d' => 51%N :: uint_str d'
  | Decimal.D4 d' => 52%N :: uint_str d'
  | Decimal.D5 d' => 53%N :: uint_str d'
  | Decimal.D6 d' => 54%N :: uint_str d'
  | Decimal.D7 d' => 55%N :: uint_str d'
  | Decimal.D8 d' => 56%N :: uint_str d'
  | Decimal.D9 d' => 57%N :: uint_str d'
  end.

Definition str_of_nat (n : nat) : str := uint_str (Nat.to_uint n).

Definition LF : char := 10%N.
Definition CR : char := 13%N.
Definition COMMA : char := 44%N.
Definition QUOTE : char := 34%N.
Definition BACKSLASH : char := 92%N.

Fixpoint join (sep : str) (l : list str) : str :=
  match l with
  | [] => []
  | [x] => x
  | x :: l' => x ++ sep ++ join sep l'
  end.

(** *** Plain text *)

(** [f"{movie['rank']}) {movie['title']}\nDescription: {movie['description']}\n\n"] *)
Definition txt_entry (m : movie) : str :=
  str_of_nat (rank m) ++ txt ") " ++ title m ++ [LF]
  ++ txt "Description: " ++ description m ++ [LF; LF].

(** *** [json.dump(movies, f, ensure_ascii=False, indent=4)] *)

Definition hex_char (x : N) : char :=
  (if x <? 10 then 48 + x else 87 + x)%N.

Definition json_escape (c : char) : str :=
  if (c =? QUOTE)%N then [BACKSLASH; QUOTE]
  else if (c =? BACKSLASH)%N then [BACKSLASH; BACKSLASH]
  else if (c =? 8)%N then BACKSLASH :: txt "b"
  else if (c =? 12)%N then BACKSLASH :: txt "f"
  else if (c =? 10)%N then BACKSLASH :: txt "n"
  else if (c =? 13)%N then BACKSLASH :: txt "r"
  else if (c =? 9)%N then BACKSLASH :: txt "t"
  else if (c <? 32)%N then
    BACKSLASH :: txt "u00" ++ [hex_char (c / 16); hex_char (c mod 16)]
  else [c].

Definition json_string (s : str) : str :=
  [QUOTE] ++ flat_map json_escape s ++ [QUOTE].

Definition json_member (k : str) (v : str) : str :=
  txt "        " ++ json_string k ++ txt ": " ++ v.

Definition json_movie (m : movie) : str :=
  txt "    {" ++ [LF]
  ++ json_member (txt "rank") (str_of_nat (rank m)) ++ txt "," ++ [LF]
  ++ json_member (txt "title") (json_string (title m)) ++ txt "," ++ [LF]
  ++ json_member (txt "description") (json_string (description m)) ++ [LF]
  ++ txt "    }".

Definition json_dump (movies : list movie) : str :=
  match movies with
  | [] => txt "[]"
  | _ =>
      txt "[" ++ [LF] ++ join (txt "," ++ [LF]) (map json_movie movies)
      ++ [LF] ++ txt "]"
  end.

(** *** [csv.DictWriter] with the default (excel) dialect *)

(** A field is quoted when it holds the delimiter, the quote character or
    a character of the line terminator. *)
Definition csv_special (c : char) : bool :=
  ((c =? COMMA) || (c =? QUOTE) || (c =? CR) || (c =? LF))%N.

Definition csv_double (c : char) : str :=
  if (c =? QUOTE)%N then [QUOTE; QUOTE] else [c].

Definition csv_field (s : str) : str :=
  if existsb csv_special s
  then [QUOTE] ++ flat_map csv_double s ++ [QUOTE]
  else s.

(** [writer.writerow(fields)]: a row whose only field is empty is written
    quoted. *)
Definition writerow (fields : list str) : str :=
  match fields with
  | [[]] => [QUOTE; QUOTE]
  | _ => join [COMMA] (map csv_field fields)
  end ++ [CR; LF].

Definition fieldnames : list str :=
  [txt "rank"; txt "title"; txt "description"].

(** The fields of one dict, in the order of [fieldnames]. *)
Definition csv_row (m : movie) : list str :=
  [str_of_nat (rank m); title m; description m].

(** [writer.writeheader()] then [writer.writerows(movies)] *)
Definition csv_text (movies : list movie) : str :=
  writerow fieldnames ++ flat_map (fun m => writerow (csv_row m)) movies.

(** *** Files *)

Inductive codec := Latin1 | Utf8.

(** Whether [encoding] has a byte sequence for the code point: ISO-8859-1
    stops at U+00FF, UTF-8 refuses the surrogates. *)
Definition encodable (enc : codec) (c : char) : bool :=
  match enc with
  | Latin1 => (c <=? 255)%N
  | Utf8 => negb ((55296 <=? c) && (c <=? 57343))%N
  end.

(** A text file as closed after a complete write: its encoding and the
    text written to it (on POSIX, where mode ["w"] leaves [\n] as it is).
    What a failed write leaves on disk is not tracked. *)
Record file := { encoding : codec; content : str }.

(** [open(..., "w", encoding=enc)] followed by the writes of [text];
    [open_error] is the [IOError] that [open] raises, if any. *)
Definition write_file (open_error : option str) (enc : codec) (text : str)
  : result file :=
  match open_error with
  | Some e => Raised (IOError e)
  | None =>
      match find (fun c => negb (encodable enc c)) text with
      | Some c => Raised (UnicodeEncodeError c)
      | None => Return {| encoding := enc; content := text |}
      end
  end.

(** The body of the [try] block, up to the [print]. *)
Definition save_body (open_error : option str) (movies : list movie)
           (file_format : str) : result (option file) :=
  let written (r : result file) : result (option file) :=
    match r with
    | Return f => Return (Some f)
    | SysExit msg => SysExit msg
    | Raised x => Raised x
    end in
  if str_eqb file_format (txt "txt") then
    written (write_file open_error Latin1 (flat_map txt_entry movies))
  else if str_eqb file_format (txt "json") then
    written (write_file open_error Utf8 (json_dump movies))
  else if str_eqb file_format (txt "csv") then
    written (write_file open_error Utf8 (csv_text movies))
  else Return None.

(** [save_file]: the file written (if any) and what is printed.  Only an
    [IOError] is handled; any other exception propagates. *)
Definition save_file (open_error : option str) (movies : list movie)
           (file_path file_format : str)
  : result (option file) * list str :=
  match save_body open_error movies file_format with
  | Return f => (Return f, [txt "List saved to " ++ file_path])
  | Raised (IOError e) => (SysExit (txt "Failed to save the file: " ++ e), [])
  | other => (other, [])
  end.

(** [display_list]: the lines handed to [print]. *)
Definition display_list (movies : list movie) : list str :=
  flat_map (fun m =>
              [str_of_nat (rank m) ++ txt ") " ++ title m;
               txt "Description: " ++ description m ++ [LF]]) movies.

(** ** Reading the tabular format back *)

(** Modelled from the spec: a reader for the tabular format, which the
    program only writes.  It follows the quoting rules of the format: a
    field is either bare, up to the next comma or line end, or enclosed in
    quotes, inside which a doubled quote stands for one quote and commas
    and line ends are data; a row ends at CR, LF or CRLF. *)

Inductive pstate :=
| StartRecord    (* nothing of the record read yet *)
| AfterCR        (* as [StartRecord], a line feed is still swallowed *)
| StartField     (* just after a comma *)
| InField        (* inside a bare field *)
| InQuoted       (* inside a quoted field *)
| AfterQuote.    (* a quote seen inside a quoted field *)

(** [field] and [row] are accumulated in reverse, [rows] as well. *)
Fixpoint csv_parse (st : pstate) (field : str) (row : list str)
         (rows : list (list str)) (input : str) : option (list (list str)) :=
  let end_row := rev (rev field :: row) :: rows in
  match input with
  | [] =>
      match st with
      | StartRecord | AfterCR => Some (rev rows)
      | InQuoted => None
      | _ => Some (rev end_row)
      end
  | c :: input' =>
      match st with
      | StartRecord | AfterCR | StartField =>
          if (c =? QUOTE)%N then csv_parse InQuoted [] row rows input'
          else if (c =? COMMA)%N then
            csv_parse StartField [] ([] :: row) rows input'
          else if (c =? CR)%N then
            match st with
            | StartField => csv_parse AfterCR [] [] end_row input'
            | _ => csv_parse AfterCR [] [] ([] :: rows) input'
            end
          else if (c =? LF)%N then
            match st with
            | StartField => csv_parse StartRecord [] [] end_row input'
            | AfterCR => csv_parse StartRecord [] [] rows input'
            | _ => csv_parse StartRecord [] [] ([] :: rows) input'
            end
          else csv_parse InField [c] row rows input'
      | InField =>
          if (c =? COMMA)%N then
            csv_parse StartField [] (rev field :: row) rows input'
          else if (c =? CR)%N then csv_parse AfterCR [] [] end_row input'
          else if (c =? LF)%N then csv_parse StartRecord [] [] end_row input'
          else csv_parse InField (c :: field) row rows input'
      | InQuoted =>
          if (c =? QUOTE)%N then csv_parse AfterQuote field row rows input'
          else csv_parse InQuoted (c :: field) row rows input'
      | AfterQuote =>
          if (c =? QUOTE)%N then
            csv_parse InQuoted (QUOTE :: field) row rows input'
          else if (c =? COMMA)%N then
            csv_parse StartField [] (rev field :: row) rows input'
          else if (c =? CR)%N then csv_parse AfterCR [] [] end_row input'
          else if (c =? LF)%N then csv_parse StartRecord [] [] end_row input'
          else None
      end
  end.

(** The states in which the reader expects the first character of a
    field. *)
Definition at_start (st : pstate) : Prop :=
  st = StartRecord \/ st = AfterCR \/ st = StartField.

Definition csv_reader (text : str) : option (list (list str)) :=
  csv_parse StartRecord [] [] [] text.

Definition digit_of (c : char) : option (Decimal.uint -> Decimal.uint) :=
  if (c =? 48)%N then Some Decimal.D0
  else if (c =? 49)%N then Some Decimal.D1
  else if (c =? 50)%N then Some Decimal.D2
  else if (c =? 51)%N then Some Decimal.D3
  else if (c =? 52)%N then Some Decimal.D4
  else if (c =? 53)%N then Some Decimal.D5
  else if (c =? 54)%N then Some Decimal.D6
  else if (c =? 55)%N then Some Decimal.D7
  else if (c =? 56)%N then Some Decimal.D8
  else if (c =? 57)%N then Some Decimal.D9
  else None.

Fixpoint str_uint (s : str) : option Decimal.uint :=
  match s with
  | [] => Some Decimal.Nil
  | c :: s' =>
      match digit_of c, str_uint s' with
      | Some dg, Some u => Some (dg u)
      | _, _ => None
      end
  end.

(** A non-empty run of decimal digits, read as a number. *)
Definition nat_of_str (s : str) : option nat :=
  match s with
  | [] => None
  | _ => option_map Nat.of_uint (str_uint s)
  end.

Definition movie_of_row (row : list str) : option movie :=
  match row with
  | [r; t; d] =>
      option_map (fun n => {| rank := n; title := t; description := d |})
                 (nat_of_str r)
  | _ => None
  end.

Fixpoint movies_of_rows (rows : list (list str)) : option (list movie) :=
  match rows with
  | [] => Some []
  | row :: rows' =>
      match movie_of_row row, movies_of_rows rows' with
      | Some m, Some ms => Some (m :: ms)
      | _, _ => None
      end
  end.

Definition str_list_eqb (a b : list str) : bool :=
  if list_eq_dec (list_eq_dec N.eq_dec) a b then true else false.

(** The header row must be [fieldnames]; every other row gives a record. *)
Definition csv_reparse (text : str) : option (list movie) :=
  match csv_reader text with
  | Some (header :: rows) =>
      if str_list_eqb header fieldnames then movies_of_rows rows else None
  | _ => None
  end.

(** ** [load_site] *)

(** What the request of [load_site] gives: a [RequestException] with its
    message, or a page, seen through the two [find_all] calls made on it
    (the [h3] elements of class [title], and every [p] element, each in
    document order). *)
Inductive site :=
| Page (all_entries descriptions : list tag)
| Unreachable (e : str).

Definition load_site (s : site) : result (list tag * list tag) :=
  match s with
  | Page all_entries descriptions => Return (all_entries, descriptions)
  | Unreachable e => SysExit (txt "Failed to load the site: " ++ e)
  end.

(** ** [main] *)

(** The [choices] of [--sort] and [--format]: [parse_args] accepts no
    other value. *)
Inductive sort_choice := ByRank | ByTitle.
Inductive format_choice := Txt | Json | Csv.

Definition sort_name (s : sort_choice) : str :=
  match s with
  | ByRank => txt "rank"
  | ByTitle => txt "title"
  end.

Definition format_name (f : format_choice) : str :=
  match f with
  | Txt => txt "txt"
  | Json => txt "json"
  | Csv => txt "csv"
  end.

(** The namespace returned by [parse_args]. *)
Module Args.
Record t := {
  url : str;
  output : str;
  filter : option str;
  sort : sort_choice;
  display : bool;
  format : format_choice;
  verbose : bool;
  check_updates : bool
}.

Definition default : t :=
  {| url := txt "https://www.empireonline.com/movies/features/best-movies-2/";
     output := txt "./movies.txt";
     filter := None;
     sort := ByRank;
     display := false;
     format := Txt;
     verbose := false;
     check_updates := false |}.
End Args.

(** What one run meets outside the program: the answer to the request of
    [check_for_updates], the answer to the request of [load_site] (a
    second, separate request), and the [IOError] raised when the output
    file is opened, if any. *)
Record env := {
  update_fetch : response;
  site_fetch : site;
  output_open_error : option str
}.

(** How a run of [main] ends: [status] tells whether it returned, the
    world holds the cache file and the trace (every [print] included), and
    [saved] is the output file when it was written in full. *)
Record run := { status : result unit; final : world; saved : option file }.

Definition print_all (lines : list str) (w : world) : world :=
  fold_left (fun w s => print s w) lines w.

(** [args.check_updates and not check_for_updates(args.url)] followed by
    the [sys.exit]. *)
Definition main_check (a : Args.t) (e : env) (w : world)
  : result unit * world :=
  if Args.check_updates a then
    match check_for_updates (update_fetch e) w with
    | (Return true, w') => (Return tt, w')
    | (Return false, w') =>
        (SysExit (txt "The list has not been updated. Exiting."), w')
    | (SysExit msg, w') => (SysExit msg, w')
    | (Raised x, w') => (Raised x, w')
    end
  else (Return tt, w).

Section Main.
(** [str.lower] *)
Variable lower : str -> str.

Definition main (a : Args.t) (e : env) (w : world) : run :=
  match main_check a e w with
  | (Return _, w1) =>
      match load_site (site_fetch e) with
      | Return (entries, descriptions) =>
          let w2 :=
            if Args.verbose a then
              print (txt "Loaded " ++ str_of_nat (List.length entries)
                     ++ txt " entries from " ++ Args.url a) w1
            else w1 in
          let sorted_list :=
            main_list lower (Args.filter a) (sort_name (Args.sort a))
                      entries descriptions in
          let w3 :=
            if Args.display a then print_all (display_list sorted_list) w2
            else w2 in
          match save_file (output_open_error e) sorted_list (Args.output a)
                          (format_name (Args.format a)) with
          | (Return f, printed) =>
              {| status := Return tt; final := print_all printed w3;
                 saved := f |}
          | (SysExit msg, printed) =>
              {| status := SysExit msg; final := print_all printed w3;
                 saved := None |}
          | (Raised x, printed) =>
              {| status := Raised x; final := print_all printed w3;
                 saved := None |}
          end
      | SysExit msg => {| status := SysExit msg; final := w1; saved := None |}
      | Raised x => {| status := Raised x; final := w1; saved := None |}
      end
  | (SysExit msg, w1) => {| status := SysExit msg; final := w1; saved := None |}
  | (Raised x, w1) => {| status := Raised x; final := w1; saved := None |}
  end.
End Main.

(** Consecutive invocations of the detector, one per fetched body, each in
    the world left by the one before; the reports are listed in order. *)
Fixpoint check_each (bodies : list bytes) (w : world)
  : list (result bool) * world :=
  match bodies with
  | [] => ([], w)
  | content :: bodies' =>
      let '(r, w') := check_for_updates (Body content) w in
      let '(rs, w'') := check_each bodies' w' in
      (r :: rs, w'')
  end.

(** What the terminal shows of a list of [print] calls: every line
    followed by a line feed. *)
Definition printed_text (lines : list str) : str :=
  flat_map (fun s => s ++ [LF]) lines.

(** The encoding [save_file] opens the file with, and the text it writes,
    for each format. *)
Definition format_codec (f : format_choice) : codec :=
  match f with
  | Txt => Latin1
  | Json | Csv => Utf8
  end.

Definition format_text (f : format_choice) (movies : list movie) : str :=
  match f with
  | Txt => flat_map txt_entry movies
  | Json => json_dump movies
  | Csv => csv_text movies
  end.

(** ** Shapes of text *)

(** No white space at either end. *)
Definition stripped (s : str) : Prop :=
  (forall c rest, s = c :: rest -> isspace c = false)
  /\ (forall c front, s = front ++ [c] -> isspace c = false).

(** ASCII code points. *)
Definition is_ascii (c : char) : bool := (c <? 128)%N.

(** Decimal digits. *)
Definition is_digit (c : char) : bool := ((48 <=? c) && (c <=? 57))%N.

(** The shapes of an escaped character: a backslash and a letter, a
    backslash and [u00] with two hexadecimal digits, or the character
    itself, which is then neither a quote nor a backslash. *)
Inductive escaped (c : char) : str -> Prop :=
| escaped_short : forall l,
    In (c, l) [(QUOTE, QUOTE); (BACKSLASH, BACKSLASH); (8, 98); (12, 102);
               (10, 110); (13, 114); (9, 116)]%N ->
    escaped c [BACKSLASH; l]
| escaped_hex :
    (c < 32)%N ->
    escaped c [BACKSLASH; 117; 48; 48; hex_char (c / 16); hex_char (c mod 16)]%N
| escaped_plain :
    c <> QUOTE -> c <> BACKSLASH -> escaped c [c].

(** The code points of every title and description of the list satisfy
    [p]. *)
Definition all_text (p : char -> bool) (movies : list movie) : bool :=
  forallb (fun m => forallb p (title m) && forallb p (description m)) movies.

(** ** Lexicographic order, as a relation *)

Inductive lex_le : str -> str -> Prop :=
| lex_le_nil : forall b, lex_le [] b
| lex_le_lt : forall x y a b, (x < y)%N -> lex_le (x :: a) (y :: b)
| lex_le_eq : forall x a b, lex_le a b -> lex_le (x :: a) (x :: b).

Definition title_le (m1 m2 : movie) : Prop := lex_le (title m1) (title m2).
Definition rank_le (m1 m2 : movie) : Prop := rank m1 <= rank m2.

(** ** Sample inputs *)

(** An element whose text is the given ASCII literal. *)
Definition T (s : string) : tag := {| get_text := txt s |}.
Arguments T s%_string.

Definition M (r : nat) (t d : string) : movie :=
  {| rank := r; title := txt t; description := txt d |}.
Arguments M r%_nat (t d)%_string.

(** The page of the two scenarios: titles and descriptions in page order. *)
Definition page_titles : list tag := [T "C"; T "B"; T "A"].
Definition page_descriptions : list tag := [T "descC"; T "descB"; T "descA"].

(** Two messages of 128 bytes that differ in six bytes (the first at
    index 19) and have the same MD5 digest,
    79054025255fb1a26e4bc422aef54eb4. *)
Definition collision_a : bytes :=
  [Byte.xd1; Byte.x31; Byte.xdd; Byte.x02; Byte.xc5; Byte.xe6; Byte.xee; Byte.xc4;
   Byte.x69; Byte.x3d; Byte.x9a; Byte.x06; Byte.x98; Byte.xaf; Byte.xf9; Byte.x5c;
   Byte.x2f; Byte.xca; Byte.xb5; Byte.x87; Byte.x12; Byte.x46; Byte.x7e; Byte.xab;
   Byte.x40; Byte.x04; Byte.x58; Byte.x3e; Byte.xb8; Byte.xfb; Byte.x7f; Byte.x89;
   Byte.x55; Byte.xad; Byte.x34; Byte.x06; Byte.x09; Byte.xf4; Byte.xb3; Byte.x02;
   Byte.x83; Byte.xe4; Byte.x88; Byte.x83; Byte.x25; Byte.x71; Byte.x41; Byte.x5a;
   Byte.x08; Byte.x51; Byte.x25; Byte.xe8; Byte.xf7; Byte.xcd; Byte.xc9; Byte.x9f;
   Byte.xd9; Byte.x1d; Byte.xbd; Byte.xf2; Byte.x80; Byte.x37; Byte.x3c; Byte.x5b;
   Byte.xd8; Byte.x82; Byte.x3e; Byte.x31; Byte.x56; Byte.x34; Byte.x8f; Byte.x5b;
   Byte.xae; Byte.x6d; Byte.xac; Byte.xd4; Byte.x36; Byte.xc9; Byte.x19; Byte.xc6;
   Byte.xdd; Byte.x53; Byte.xe2; Byte.xb4; Byte.x87; Byte.xda; Byte.x03; Byte.xfd;
   Byte.x02; Byte.x39; Byte.x63; Byte.x06; Byte.xd2; Byte.x48; Byte.xcd; Byte.xa0;
   Byte.xe9; Byte.x9f; Byte.x33; Byte.x42; Byte.x0f; Byte.x57; Byte.x7e; Byte.xe8;
   Byte.xce; Byte.x54; Byte.xb6; Byte.x70; Byte.x80; Byte.xa8; Byte.x0d; Byte.x1e;
   Byte.xc6; Byte.x98; Byte.x21; Byte.xbc; Byte.xb6; Byte.xa8; Byte.x83; Byte.x93;
   Byte.x96; Byte.xf9; Byte.x65; Byte.x2b; Byte.x6f; Byte.xf7; Byte.x2a; Byte.x70].

Definition collision_b : bytes :=
  [Byte.xd1; Byte.x31; Byte.xdd; Byte.x02; Byte.xc5; Byte.xe6; Byte.xee; Byte.xc4;
   Byte.x69; Byte.x3d; Byte.x9a; Byte.x06; Byte.x98; Byte.xaf; Byte.xf9; Byte.x5c;
   Byte.x2f; Byte.xca; Byte.xb5; Byte.x07; Byte.x12; Byte.x46; Byte.x7e; Byte.xab;
   Byte.x40; Byte.x04; Byte.x58; Byte.x3e; Byte.xb8; Byte.xfb; Byte.x7f; Byte.x89;
   Byte.x55; Byte.xad; Byte.x34; Byte.x06; Byte.x09; Byte.xf4; Byte.xb3; Byte.x02;
   Byte.x83; Byte.xe4; Byte.x88; Byte.x83; Byte.x25; Byte.xf1; Byte.x41; Byte.x5a;
   Byte.x08; Byte.x51; Byte.x25; Byte.xe8; Byte.xf7; Byte.xcd; Byte.xc9; Byte.x9f;
   Byte.xd9; Byte.x1d; Byte.xbd; Byte.x72; Byte.x80; Byte.x37; Byte.x3c; Byte.x5b;
   Byte.xd8; Byte.x82; Byte.x3e; Byte.x31; Byte.x56; Byte.x34; Byte.x8f; Byte.x5b;
   Byte.xae; Byte.x6d; Byte.xac; Byte.xd4; Byte.x36; Byte.xc9; Byte.x19; Byte.xc6;
   Byte.xdd; Byte.x53; Byte.xe2; Byte.x34; Byte.x87; Byte.xda; Byte.x03; Byte.xfd;
   Byte.x02; Byte.x39; Byte.x63; Byte.x06; Byte.xd2; Byte.x48; Byte.xcd; Byte.xa0;
   Byte.xe9; Byte.x9f; Byte.x33; Byte.x42; Byte.x0f; Byte.x57; Byte.x7e; Byte.xe8;
   Byte.xce; Byte.x54; Byte.xb6; Byte.x70; Byte.x80; Byte.x28; Byte.x0d; Byte.x1e;
   Byte.xc6; Byte.x98; Byte.x21; Byte.xbc; Byte.xb6; Byte.xa8; Byte.x83; Byte.x93;
   Byte.x96; Byte.xf9; Byte.x65; Byte.xab; Byte.x6f; Byte.xf7; Byte.x2a; Byte.x70].

(** No cache file yet, nothing done yet. *)
Definition fresh : world := {| cache_file := None; trace := [] |}.

(** A run with every option but [--check-updates], the same with
    [--check-updates], the page of the scenarios, and a site that does
    not answer. *)
Definition sample_args : Args.t :=
  {| Args.url := txt "http://example.org/";
     Args.output := txt "./movies.csv";
     Args.filter := Some (txt "b");
     Args.sort := ByTitle;
     Args.display := true;
     Args.format := Csv;
     Args.verbose := true;
     Args.check_updates := false |}.

Definition checking_args : Args.t :=
  {| Args.url := Args.url sample_args;
     Args.output := Args.output sample_args;
     Args.filter := Args.filter sample_args;
     Args.sort := Args.sort sample_args;
     Args.display := Args.display sample_args;
     Args.format := Args.format sample_args;
     Args.verbose := Args.verbose sample_args;
     Args.check_updates := true |}.

Definition sample_env : env :=
  {| update_fetch := Body collision_a;
     site_fetch := Page page_titles page_descriptions;
     output_open_error := None |}.

Definition offline_env : env :=
  {| update_fetch := Body collision_a;
     site_fetch := Unreachable (txt "timed out");
     output_open_error := None |}.

(** The cache file left by a run of the detector on [collision_a]. *)
Definition cached : world :=
  {| cache_file := Some (md5_hexdigest collision_a); trace := [] |}.

(** A page on which [find_all] finds the titles and no paragraph. *)
Definition bare_env : env :=
  {| update_fetch := Body [];
     site_fetch := Page page_titles [];
     output_open_error := None |}.

(* ------------------------------------------------------------------ *)
(** * Part II. Properties *)
(* ------------------------------------------------------------------ *)

(** ** The models on known values *)

(** The test suite of RFC 1321, in part. *)
Example md5_of_empty :
  md5_hexdigest [] = txt "d41d8cd98f00b204e9800998ecf8427e".
Proof. vm_compute. reflexivity. Qed.

Example md5_of_abc :
  md5_hexdigest (list_byte_of_string "abc")
  = txt "900150983cd24fb0d6963f7d28e17f72".
Proof. vm_compute. reflexivity. Qed.

Example md5_of_digits :
  md5_hexdigest
    (list_byte_of_string
       "12345678901234567890123456789012345678901234567890123456789012345678901234567890")
  = txt "57edf4a22be3c955ac49da2e2107b67a".
Proof. vm_compute. reflexivity. Qed.

Example md5_of_collision_a :
  md5_hexdigest collision_a = txt "79054025255fb1a26e4bc422aef54eb4".
Proof. vm_compute. reflexivity. Qed.

Example strip_spaces :
  strip (9 :: txt "  Taxi Driver " ++ [10; 160])%N = txt "Taxi Driver".
Proof. reflexivity. Qed.

Example keyword_in_title :
  contains_ci ascii_lower (txt "FATHER") (txt "The Godfather") = true
  /\ contains_ci ascii_lower (txt "fathers") (txt "The Godfather") = false.
Proof. split; reflexivity. Qed.

Example compare_titles :
  str_ltb (txt "Alien") (txt "Aliens") = true
  /\ str_ltb (txt "Zodiac") (txt "alien") = true
  /\ str_ltb (txt "Heat") (txt "Heat") = false.
Proof. repeat split. Qed.

Example stable_sort_keeps_ties :
  sort_movies (txt "title") [M 1 "B" "x"; M 2 "A" "y"; M 3 "B" "z"; M 4 "A" "t"]
  = [M 2 "A" "y"; M 4 "A" "t"; M 1 "B" "x"; M 3 "B" "z"].
Proof. reflexivity. Qed.

Example txt_entry_example :
  txt_entry (M 7 "Heat" "Crime")
  = txt "7) Heat" ++ [LF] ++ txt "Description: Crime" ++ [LF; LF].
Proof. reflexivity. Qed.

Example csv_text_example :
  csv_text [M 1 "a,b" "x"; M 12 "" "y"]
  = txt "rank,title,description" ++ [CR; LF]
    ++ txt "1," ++ [QUOTE] ++ txt "a,b" ++ [QUOTE] ++ txt ",x" ++ [CR; LF]
    ++ txt "12,,y" ++ [CR; LF].
Proof. reflexivity. Qed.

Example json_dump_example :
  json_dump [M 1 "A" "d"]
  = txt "[" ++ [LF]
    ++ txt "    {" ++ [LF]
    ++ txt "        " ++ [QUOTE] ++ txt "rank" ++ [QUOTE] ++ txt ": 1," ++ [LF]
    ++ txt "        " ++ [QUOTE] ++ txt "title" ++ [QUOTE] ++ txt ": "
    ++ [QUOTE] ++ txt "A" ++ [QUOTE] ++ txt "," ++ [LF]
    ++ txt "        " ++ [QUOTE] ++ txt "description" ++ [QUOTE] ++ txt ": "
    ++ [QUOTE] ++ txt "d" ++ [QUOTE] ++ [LF]
    ++ txt "    }" ++ [LF]
    ++ txt "]"
  /\ json_dump [] = txt "[]".
Proof. split; reflexivity. Qed.

(** ** Text *)

Lemma str_eqb_eq (a b : str) : str_eqb a b = true <-> a = b.
Proof.
  revert b; induction a as [|x a IH]; intros [|y b]; simpl; split;
    try congruence; try reflexivity.
  - intros H. apply andb_true_iff in H as [Hx Hab].
    apply N.eqb_eq in Hx. apply IH in Hab. congruence.
  - intros H. injection H as -> ->. apply andb_true_iff. split.
    + apply N.eqb_refl.
    + now apply IH.
Qed.

Lemma str_eqb_refl (a : str) : str_eqb a a = true.
Proof. now apply str_eqb_eq. Qed.

Lemma str_eqb_neq (a b : str) : a <> b -> str_eqb a b = false.
Proof.
  intros H. destruct (str_eqb a b) eqn:E; [|reflexivity].
  now apply str_eqb_eq in E.
Qed.

Lemma str_in_nil (s : str) : str_in [] s = true.
Proof. destruct s; reflexivity. Qed.

(** [not (b < a)] is [a <= b] in the lexicographic order. *)
Lemma str_ltb_false_le (a b : str) : str_ltb b a = false -> lex_le a b.
Proof.
  revert b; induction a as [|x a IH]; intros b H.
  - constructor.
  - destruct b as [|y b]; simpl in H; [discriminate|].
    destruct (N.ltb_spec y x) as [Hyx|Hyx]; [discriminate|].
    destruct (N.ltb_spec x y) as [Hxy|Hxy].
    + now apply lex_le_lt.
    + assert (x = y) by lia. subst y. apply lex_le_eq. now apply IH.
Qed.

Lemma str_ltb_true_le (a b : str) : str_ltb a b = true -> lex_le a b.
Proof.
  revert b; induction a as [|x a IH]; intros b H.
  - constructor.
  - destruct b as [|y b]; simpl in H; [discriminate|].
    destruct (N.ltb_spec x y) as [Hxy|Hxy].
    + now apply lex_le_lt.
    + destruct (N.ltb_spec y x) as [Hyx|Hyx]; [discriminate|].
      assert (x = y) by lia. subst y. apply lex_le_eq. now apply IH.
Qed.

Lemma lex_le_trans (a b c : str) : lex_le a b -> lex_le b c -> lex_le a c.
Proof.
  intros Hab; revert c; induction Hab as [b|x y a b Hxy|x a b Hab IH];
    intros c Hbc.
  - constructor.
  - inversion Hbc; subst.
    + apply lex_le_lt. lia.
    + now apply lex_le_lt.
  - inversion Hbc; subst.
    + now apply lex_le_lt.
    + apply lex_le_eq. now apply IH.
Qed.

Lemma str_leb_le (a b : str) : str_leb a b = true <-> lex_le a b.
Proof.
  unfold str_leb. split.
  - intros H. apply str_ltb_false_le. now apply negb_true_iff.
  - intros H. apply negb_true_iff. revert H.
    induction 1 as [b|x y a b Hxy|x a b Hab IH].
    + now destruct b.
    + simpl. destruct (N.ltb_spec y x); [lia|].
      destruct (N.ltb_spec x y); [reflexivity|lia].
    + simpl. rewrite N.ltb_irrefl. exact IH.
Qed.

(** ** [list.sort] *)

Section SortFacts.
Context {A K : Type}.
Variable ltb : K -> K -> bool.
Variable key : A -> K.

Lemma insert_by_perm (x : A) (l : list A) :
  Permutation (insert_by ltb key x l) (x :: l).
Proof.
  induction l as [|y l IH]; simpl.
  - reflexivity.
  - destruct (ltb (key y) (key x)).
    + rewrite IH. apply perm_swap.
    + reflexivity.
Qed.

Lemma list_sort_perm (l : list A) : Permutation (list_sort ltb key l) l.
Proof.
  induction l as [|x l IH]; simpl.
  - reflexivity.
  - rewrite insert_by_perm. now constructor.
Qed.

(** A list in which no element has a key below the key of the element
    before it is left as it is. *)
Lemma list_sort_ascending (l : list A) :
  Sorted (fun x y => ltb (key y) (key x) = false) l ->
  list_sort ltb key l = l.
Proof.
  induction 1 as [|x l Hl IH Hhd]; simpl.
  - reflexivity.
  - rewrite IH. destruct Hhd as [|y l' Hxy]; simpl.
    + reflexivity.
    + now rewrite Hxy.
Qed.

Variable le : K -> K -> Prop.
Hypothesis le_trans : forall x y z, le x y -> le y z -> le x z.
Hypothesis ltb_false : forall x y, ltb y x = false -> le x y.
Hypothesis ltb_true : forall x y, ltb y x = true -> le y x.

Let R (x y : A) : Prop := le (key x) (key y).

Lemma insert_by_sorted (x : A) (l : list A) :
  StronglySorted R l -> StronglySorted R (insert_by ltb key x l).
Proof.
  induction 1 as [|y l Hl IH Hall]; simpl.
  - repeat constructor.
  - destruct (ltb (key y) (key x)) eqn:E.
    + constructor; [exact IH|].
      apply (Permutation_Forall (x := x :: l)).
      * symmetry. apply insert_by_perm.
      * constructor; [now apply ltb_true | exact Hall].
    + constructor; [now constructor|].
      constructor; [now apply ltb_false|].
      eapply Forall_impl; [|exact Hall].
      intros z Hz. eapply le_trans; [|exact Hz]. now apply ltb_false.
Qed.

Lemma list_sort_sorted (l : list A) : StronglySorted R (list_sort ltb key l).
Proof.
  induction l as [|x l IH]; simpl.
  - constructor.
  - now apply insert_by_sorted.
Qed.
End SortFacts.

(** ** The list processor *)

Lemma enumerate_fst {A : Type} (l : list A) (start : nat) :
  map fst (enumerate start l) = seq start (List.length l).
Proof.
  revert start; induction l as [|x l IH]; intros start; simpl.
  - reflexivity.
  - now rewrite IH.
Qed.

Lemma enumerate_snd {A : Type} (l : list A) (start : nat) :
  map snd (enumerate start l) = l.
Proof.
  revert start; induction l as [|x l IH]; intros start; simpl.
  - reflexivity.
  - now rewrite IH.
Qed.

Lemma paired_length (entries descriptions : list tag) :
  List.length (paired entries descriptions)
  = Nat.min (List.length entries) (List.length descriptions).
Proof. unfold paired. now rewrite length_combine, !length_rev. Qed.

Lemma build_movies_rank (entries descriptions : list tag) :
  map rank (build_movies entries descriptions)
  = seq 1 (Nat.min (List.length entries) (List.length descriptions)).
Proof.
  unfold build_movies. rewrite map_map.
  rewrite <- paired_length, <- enumerate_fst.
  apply map_ext. now intros [r [e d]].
Qed.

Lemma build_movies_length (entries descriptions : list tag) :
  List.length (build_movies entries descriptions)
  = Nat.min (List.length entries) (List.length descriptions).
Proof.
  rewrite <- (length_map rank), build_movies_rank. apply length_seq.
Qed.

Lemma build_movies_title (entries descriptions : list tag) :
  map title (build_movies entries descriptions)
  = map (fun e => strip (get_text e))
        (map fst (paired entries descriptions)).
Proof.
  unfold build_movies. rewrite !map_map.
  rewrite <- (enumerate_snd (paired entries descriptions) 1) at 2.
  rewrite map_map. apply map_ext. now intros [r [e d]].
Qed.

Lemma seq_sorted (len start : nat) : Sorted le (seq start len).
Proof.
  revert start; induction len as [|len IH]; intros start; simpl.
  - constructor.
  - constructor; [apply IH|]. destruct len; simpl; constructor. lia.
Qed.

Lemma sorted_map_rank (ms : list movie) :
  Sorted le (map rank ms) -> Sorted rank_le ms.
Proof.
  induction ms as [|m ms IH]; simpl; intros H.
  - constructor.
  - inversion H as [|? ? Hs Hhd]; subst. constructor; [now apply IH|].
    destruct ms; simpl in *; constructor. now inversion Hhd.
Qed.

Lemma sort_by_rank_ascending (ms : list movie) :
  Sorted rank_le ms -> sort_movies (txt "rank") ms = ms.
Proof.
  intros H. unfold sort_movies. simpl.
  apply list_sort_ascending.
  eapply Sorted_ind with (P := fun l => Sorted _ l); [constructor| |exact H].
  intros a l _ Hl Hhd. constructor; [exact Hl|].
  destruct Hhd as [|b l' Hab]; constructor.
  apply Nat.ltb_ge. exact Hab.
Qed.

Lemma sort_movies_perm (sort_by : str) (ms : list movie) :
  Permutation (sort_movies sort_by ms) ms.
Proof.
  unfold sort_movies.
  destruct (str_eqb sort_by (txt "title")); [apply list_sort_perm|].
  destruct (str_eqb sort_by (txt "rank")); [apply list_sort_perm|].
  reflexivity.
Qed.

Lemma build_movies_ascending (entries descriptions : list tag) :
  Sorted rank_le (build_movies entries descriptions).
Proof.
  apply sorted_map_rank. rewrite build_movies_rank. apply seq_sorted.
Qed.

Lemma sort_entries_by_rank (entries descriptions : list tag) :
  sort_entries entries descriptions (txt "rank")
  = build_movies entries descriptions.
Proof.
  unfold sort_entries. apply sort_by_rank_ascending, build_movies_ascending.
Qed.

Lemma sort_by_title_sorted (ms : list movie) :
  StronglySorted title_le (sort_movies (txt "title") ms).
Proof.
  unfold sort_movies. simpl.
  apply (list_sort_sorted str_ltb title lex_le).
  - apply lex_le_trans.
  - intros x y. apply str_ltb_false_le.
  - intros x y. apply str_ltb_true_le.
Qed.

Lemma combine_fst_firstn {A B : Type} (a : list A) (b : list B) :
  map fst (combine a b) = firstn (List.length b) a.
Proof.
  revert b; induction a as [|x a IH]; intros [|y b]; simpl;
    try reflexivity.
  now rewrite IH.
Qed.

Lemma filter_rev_comm {A : Type} (f : A -> bool) (l : list A) :
  filter f (rev l) = rev (filter f l).
Proof.
  induction l as [|x l IH]; simpl.
  - reflexivity.
  - rewrite filter_app, IH. simpl. destruct (f x); simpl.
    + reflexivity.
    + now rewrite app_nil_r.
Qed.

Lemma firstn_succ {A : Type} (l : list A) (n : nat) :
  firstn (S n) l = firstn n l ++ firstn 1 (skipn n l).
Proof.
  revert l; induction n as [|n IH]; intros [|x l]; try reflexivity.
  change (x :: firstn (S n) l = x :: firstn n l ++ firstn 1 (skipn n l)).
  now rewrite IH.
Qed.

(** Filtering the first [n] elements gives a prefix of the first [n]
    elements of the filtered list. *)
Lemma firstn_filter_prefix {A : Type} (f : A -> bool) (l : list A) (n : nat) :
  exists extra,
    firstn n (filter f l) = filter f (firstn n l) ++ extra.
Proof.
  revert n; induction l as [|x l IH]; intros n.
  - exists []. now rewrite !firstn_nil.
  - destruct n as [|n].
    + exists []. reflexivity.
    + destruct (IH n) as [extra H].
      change (firstn (S n) (x :: l)) with (x :: firstn n l).
      change (filter f (x :: l))
        with (if f x then x :: filter f l else filter f l).
      change (filter f (x :: firstn n l))
        with (if f x then x :: filter f (firstn n l)
              else filter f (firstn n l)).
      destruct (f x).
      * exists extra.
        change (firstn (S n) (x :: filter f l))
          with (x :: firstn n (filter f l)).
        now rewrite H.
      * exists (extra ++ firstn 1 (skipn n (filter f l))).
        now rewrite firstn_succ, H, app_assoc.
Qed.

Lemma firstn_filter_all {A : Type} (f : A -> bool) (l : list A) (n : nat) :
  List.length l <= n -> firstn n (filter f l) = filter f (firstn n l).
Proof.
  intros H. rewrite (firstn_all2 l) by exact H.
  apply firstn_all2. pose proof (filter_length_le f l). lia.
Qed.

Section FilterFacts.
Variable lower : str -> str.
Hypothesis lower_nil : lower [] = [].

Lemma main_filter_spec (K : str) (entries : list tag) :
  main_filter lower (Some K) entries
  = filter (fun e => contains_ci lower K (get_text e)) entries.
Proof.
  destruct K as [|k K]; simpl; [|reflexivity].
  symmetry. apply forallb_filter_id. apply forallb_forall.
  intros e _. unfold contains_ci. rewrite lower_nil. apply str_in_nil.
Qed.
End FilterFacts.

(* ------------------------------------------------------------------ *)
(** ** Claims on the list processor *)

(** C1 (code defect).  On the page of the scenario, run with
    [--filter b] and the default sort, the processor returns one record of
    rank 1 and title "B", but its description is "descA", not "descB": the
    filter shortens the title sequence only, so after the reversal "B" is
    paired with the last description of the page. *)
Theorem filter_b_pairs_wrong_description :
  main_list ascii_lower (Some (txt "b")) (txt "rank")
            page_titles page_descriptions
  = [M 1 "B" "descA"]
  /\ main_list ascii_lower (Some (txt "b")) (txt "rank")
               page_titles page_descriptions
     <> [M 1 "B" "descB"].
Proof. split; [reflexivity | discriminate]. Qed.

(** C3.  Without a filter the processed list has
    [min (len titles) (len descriptions)] records, whatever the sort key;
    the ranks assigned are [1 .. min], in that order before sorting and
    after a sort by rank, and as a multiset after any sort. *)
Theorem zip_length_and_ranks (lower : str -> str)
        (entries descriptions : list tag) (sort : str) :
  let n := Nat.min (List.length entries) (List.length descriptions) in
  List.length (main_list lower None sort entries descriptions) = n
  /\ map rank (build_movies entries descriptions) = seq 1 n
  /\ map rank (main_list lower None (txt "rank") entries descriptions)
     = seq 1 n
  /\ Permutation
       (map rank (main_list lower None sort entries descriptions))
       (seq 1 n).
Proof.
  cbv zeta. unfold main_list, main_filter.
  repeat split.
  - unfold sort_entries.
    rewrite (Permutation_length (sort_movies_perm _ _)).
    apply build_movies_length.
  - apply build_movies_rank.
  - rewrite sort_entries_by_rank. apply build_movies_rank.
  - rewrite <- build_movies_rank. apply Permutation_map.
    apply sort_movies_perm.
Qed.

(** C4.  On the page of the scenario, with no filter and a sort by rank,
    the processed list is A, B, C with ranks 1, 2, 3 and each title with
    its own description. *)
Theorem scenario_sort_by_rank :
  main_list ascii_lower None (txt "rank") page_titles page_descriptions
  = [M 1 "A" "descA"; M 2 "B" "descB"; M 3 "C" "descC"]
  /\ sort_entries page_titles page_descriptions (txt "rank")
     = [M 1 "A" "descA"; M 2 "B" "descB"; M 3 "C" "descC"].
Proof. split; reflexivity. Qed.

(** C6.  For every record list, the sort by title returns the titles in
    non-decreasing lexicographic order; the sort by rank returns a list
    whose ranks are already ascending unchanged, so that it leaves the
    list built by the processor as it is and is idempotent. *)
Theorem sort_by_title_and_rank (movies : list movie) :
  StronglySorted title_le (sort_movies (txt "title") movies)
  /\ (Sorted rank_le movies -> sort_movies (txt "rank") movies = movies)
  /\ (forall entries descriptions,
        sort_movies (txt "rank") (sort_entries entries descriptions (txt "rank"))
        = sort_entries entries descriptions (txt "rank")).
Proof.
  split; [apply sort_by_title_sorted|].
  split; [apply sort_by_rank_ascending|].
  intros entries descriptions. rewrite sort_entries_by_rank.
  apply sort_by_rank_ascending, build_movies_ascending.
Qed.

Lemma sort_by_title_and_rank_witness :
  Sorted rank_le [M 1 "B" "x"; M 1 "A" "y"; M 4 "C" "z"]
  /\ sort_movies (txt "rank") [M 1 "B" "x"; M 1 "A" "y"; M 4 "C" "z"]
     = [M 1 "B" "x"; M 1 "A" "y"; M 4 "C" "z"].
Proof.
  assert (H : Sorted rank_le [M 1 "B" "x"; M 1 "A" "y"; M 4 "C" "z"]).
  { repeat constructor; unfold rank_le; simpl; lia. }
  split; [exact H|].
  exact (proj1 (proj2 (sort_by_title_and_rank _)) H).
Defined.

(** C9.  A sort by title only permutes the records built by the rank
    assignment: every record keeps the rank it was given, and the ranks of
    the result need not be ascending (page "A", "B" gives ranks 2, 1). *)
Theorem sort_by_title_keeps_ranks :
  (forall entries descriptions,
      Permutation (sort_entries entries descriptions (txt "title"))
                  (build_movies entries descriptions)
      /\ Permutation
           (map rank (sort_entries entries descriptions (txt "title")))
           (seq 1 (Nat.min (List.length entries) (List.length descriptions))))
  /\ sort_entries [T "A"; T "B"] [T "descA"; T "descB"] (txt "title")
     = [M 2 "A" "descA"; M 1 "B" "descB"]
  /\ ~ Sorted le
       (map rank
            (sort_entries [T "A"; T "B"] [T "descA"; T "descB"] (txt "title"))).
Proof.
  split; [|split].
  - intros entries descriptions. split.
    + apply sort_movies_perm.
    + rewrite <- build_movies_rank. apply Permutation_map, sort_movies_perm.
  - reflexivity.
  - intros H. vm_compute in H.
    inversion H as [|? ? _ Hhd]; subst. inversion Hhd; subst. lia.
Qed.

Lemma firstn_incl {A : Type} (n : nat) (l : list A) (x : A) :
  In x (firstn n l) -> In x l.
Proof.
  intros H. rewrite <- (firstn_skipn n l). apply in_or_app. now left.
Qed.

Lemma paired_entries (entries descriptions : list tag) :
  map fst (paired entries descriptions)
  = firstn (List.length descriptions) (rev entries).
Proof. unfold paired. now rewrite combine_fst_firstn, length_rev. Qed.

(** C2.  With keyword [K], the filter keeps, in page order, exactly the
    elements of the original title sequence whose text contains [K] case
    insensitively.  The records built from them carry the ranks 1, 2, ...
    without a gap (as a multiset under a sort by title).  Every record of
    the result comes from a title that contains [K]; and the titles that
    contain [K] among the records of the run without filter all survive,
    in the same order, as a prefix of the result (all of the result when
    no title lacks a description). *)
Theorem filter_keeps_exactly (lower : str -> str)
        (lower_nil : lower [] = [])
        (entries descriptions : list tag) (K : str) :
  let keep := fun e => contains_ci lower K (get_text e) in
  let kept := main_filter lower (Some K) entries in
  let out := main_list lower (Some K) (txt "rank") entries descriptions in
  kept = filter keep entries
  /\ (forall e, In e kept <-> In e entries /\ keep e = true)
  /\ map rank out = seq 1 (List.length out)
  /\ (forall sort,
        Permutation (main_list lower (Some K) sort entries descriptions) out)
  /\ map title out
     = map (fun e => strip (get_text e)) (map fst (paired kept descriptions))
  /\ Forall (fun e => In e entries /\ keep e = true)
            (map fst (paired kept descriptions))
  /\ (exists extra,
        map fst (paired kept descriptions)
        = filter keep (map fst (paired entries descriptions)) ++ extra)
  /\ (List.length entries <= List.length descriptions ->
      map fst (paired kept descriptions) = rev (filter keep entries)).
Proof.
  cbv zeta.
  pose proof (main_filter_spec lower lower_nil K entries) as Hk.
  unfold main_list. rewrite Hk.
  set (keep := fun e => contains_ci lower K (get_text e)).
  rewrite sort_entries_by_rank.
  split; [reflexivity|].
  split; [intros e; apply filter_In|].
  split.
  { rewrite build_movies_rank, <- build_movies_length. reflexivity. }
  split.
  { intros sort. apply sort_movies_perm. }
  split; [apply build_movies_title|].
  rewrite !paired_entries, <- filter_rev_comm.
  split.
  { apply Forall_forall. intros e He. apply firstn_incl in He.
    apply filter_In in He as [He Hkeep]. split; [|exact Hkeep].
    now apply in_rev. }
  split; [apply firstn_filter_prefix|].
  intros Hlen. rewrite firstn_filter_all by (rewrite length_rev; exact Hlen).
  rewrite firstn_all2 by (rewrite length_rev; exact Hlen). reflexivity.
Qed.

Lemma filter_keeps_exactly_witness :
  ascii_lower [] = []
  /\ main_filter ascii_lower (Some (txt "b")) page_titles = [T "B"]
  /\ List.length page_titles <= List.length page_descriptions
  /\ map fst (paired (main_filter ascii_lower (Some (txt "b")) page_titles)
                     page_descriptions)
     = [T "B"].
Proof.
  pose proof (filter_keeps_exactly ascii_lower eq_refl
                page_titles page_descriptions (txt "b")) as H.
  cbv zeta in H.
  destruct H as (H1 & _ & _ & _ & _ & _ & _ & H8).
  split; [reflexivity|].
  split; [rewrite H1; reflexivity|].
  assert (Hlen : List.length page_titles <= List.length page_descriptions)
    by (simpl; lia).
  split; [exact Hlen|].
  rewrite (H8 Hlen). reflexivity.
Defined.

(* ------------------------------------------------------------------ *)
(** ** Claims on the change detector *)

Lemma check_for_updates_absent (content : bytes) (w : world) :
  cache_file w = None ->
  check_for_updates (Body content) w
  = (Return true, write_cache (md5_hexdigest content) w).
Proof. intros H. unfold check_for_updates. now rewrite H. Qed.

Lemma check_for_updates_same (content : bytes) (w : world) :
  cache_file w = Some (md5_hexdigest content) ->
  check_for_updates (Body content) w
  = (Return false, print (txt "No updates found.") (emit ReadCache w)).
Proof.
  intros H. unfold check_for_updates. now rewrite H, str_eqb_refl.
Qed.

Lemma check_for_updates_differ (content : bytes) (w : world) (old : str) :
  cache_file w = Some old -> old <> md5_hexdigest content ->
  check_for_updates (Body content) w
  = (Return true,
     print (txt "Updates found. Fetching new data.")
           (write_cache (md5_hexdigest content) (emit ReadCache w))).
Proof.
  intros H Hne. unfold check_for_updates.
  now rewrite H, (str_eqb_neq _ _ Hne).
Qed.

(** After any run that fetched a body, the cache file holds its digest. *)
Lemma check_for_updates_stores (content : bytes) (w : world) :
  cache_file (snd (check_for_updates (Body content) w))
  = Some (md5_hexdigest content).
Proof.
  destruct (cache_file w) as [old|] eqn:E.
  - destruct (list_eq_dec N.eq_dec old (md5_hexdigest content)) as [ -> | Hne ].
    + now rewrite check_for_updates_same.
    + now rewrite (check_for_updates_differ _ _ _ E Hne).
  - now rewrite check_for_updates_absent.
Qed.

(** C5 (as amended).  With [h] the digest of the fetched bytes: without a
    cache file the detector writes [h] and reports changed; with a cache
    file equal to [h] it reports unchanged; with a cache file that differs
    it overwrites it with [h] and reports changed.  Hence a second run on
    the same bytes reports unchanged, and a second run on bytes whose
    digest differs reports changed and stores the new digest. *)
Theorem change_detector_cases (content : bytes) (w : world) :
  let h := md5_hexdigest content in
  let r := fst (check_for_updates (Body content) w) in
  let w' := snd (check_for_updates (Body content) w) in
  (cache_file w = None ->
     r = Return true /\ cache_file w' = Some h
     /\ trace w' = trace w ++ [WriteCache h])
  /\ (cache_file w = Some h -> r = Return false)
  /\ (forall old, cache_file w = Some old -> old <> h ->
        r = Return true /\ cache_file w' = Some h
        /\ In (WriteCache h) (trace w'))
  /\ fst (check_for_updates (Body content) w') = Return false
  /\ (forall content2, md5_hexdigest content2 <> h ->
        fst (check_for_updates (Body content2) w') = Return true
        /\ cache_file (snd (check_for_updates (Body content2) w'))
           = Some (md5_hexdigest content2)).
Proof.
  cbv zeta. split; [|split; [|split; [|split]]].
  - intros H. now rewrite (check_for_updates_absent _ _ H).
  - intros H. now rewrite (check_for_updates_same _ _ H).
  - intros old H Hne. rewrite (check_for_updates_differ _ _ _ H Hne). simpl.
    repeat split.
    apply in_or_app. left. apply in_or_app. right. now left.
  - rewrite check_for_updates_same; [reflexivity|].
    apply check_for_updates_stores.
  - intros content2 Hne. split; [|apply check_for_updates_stores].
    rewrite (check_for_updates_differ content2 _ (md5_hexdigest content));
      [reflexivity | apply check_for_updates_stores | congruence].
Qed.

Lemma change_detector_cases_witness :
  cache_file fresh = None
  /\ fst (check_for_updates (Body collision_a) fresh) = Return true
  /\ md5_hexdigest [] <> md5_hexdigest collision_a
  /\ fst (check_for_updates (Body [])
            (snd (check_for_updates (Body collision_a) fresh)))
     = Return true.
Proof.
  pose proof (change_detector_cases collision_a fresh) as H.
  cbv zeta in H. destruct H as (H1 & _ & _ & _ & H5).
  assert (Hne : md5_hexdigest [] <> md5_hexdigest collision_a)
    by (vm_compute; discriminate).
  split; [reflexivity|].
  split; [exact (proj1 (H1 eq_refl))|].
  split; [exact Hne|].
  exact (proj1 (H5 [] Hne)).
Defined.

(** C5 as stated fails: [collision_a] and [collision_b] are different
    bytes with the same digest, so a run on [collision_b] that follows a
    run on [collision_a] reports unchanged and leaves the cache file as it
    is. *)
Lemma different_bytes_same_digest :
  collision_a <> collision_b
  /\ md5_hexdigest collision_a = md5_hexdigest collision_b
  /\ fst (check_for_updates (Body collision_b)
            (snd (check_for_updates (Body collision_a) fresh)))
     = Return false.
Proof.
  split; [|split].
  - intros H. apply (f_equal (fun l => nth 19 l Byte.x00)) in H.
    discriminate H.
  - vm_compute. reflexivity.
  - vm_compute. reflexivity.
Qed.

(** C8.  When the cache file holds the digest of the fetched bytes, the
    detector reads it, prints, and returns: the file is not written and
    its content is what it was.  In every run, a write to the cache file
    happens only when the file was absent or held something else than the
    new digest, and what is written is that digest. *)
Theorem unchanged_leaves_cache (r : response) (w : world) :
  let w' := snd (check_for_updates r w) in
  (forall content,
      r = Body content -> cache_file w = Some (md5_hexdigest content) ->
      fst (check_for_updates r w) = Return false
      /\ cache_file w' = cache_file w
      /\ trace w' = trace w ++ [ReadCache; Print (txt "No updates found.")])
  /\ (exists evs,
        trace w' = trace w ++ evs
        /\ (forall s, In (WriteCache s) evs ->
              cache_file w <> Some s /\ cache_file w' = Some s
              /\ exists content, r = Body content /\ s = md5_hexdigest content)
        /\ ((forall s, ~ In (WriteCache s) evs) ->
              cache_file w' = cache_file w)).
Proof.
  cbv zeta. split.
  - intros content -> H. rewrite (check_for_updates_same _ _ H). simpl.
    repeat split. now rewrite <- app_assoc.
  - destruct r as [content|e].
    + destruct (cache_file w) as [old|] eqn:E.
      * destruct (list_eq_dec N.eq_dec old (md5_hexdigest content))
          as [ -> | Hne ].
        -- rewrite (check_for_updates_same _ _ E). simpl.
           exists [ReadCache; Print (txt "No updates found.")].
           split; [now rewrite <- app_assoc|]. split.
           ++ intros s [Hs|[Hs|[]]]; discriminate Hs.
           ++ intros _. exact E.
        -- rewrite (check_for_updates_differ _ _ _ E Hne). simpl.
           exists [ReadCache; WriteCache (md5_hexdigest content);
                   Print (txt "Updates found. Fetching new data.")].
           split; [now rewrite <- !app_assoc|]. split.
           ++ intros s [Hs|[Hs|[Hs|[]]]]; try discriminate Hs.
              injection Hs as <-. split; [congruence|].
              split; [reflexivity|]. now exists content.
           ++ intros Hno. exfalso.
              apply (Hno (md5_hexdigest content)). right. now left.
      * rewrite (check_for_updates_absent _ _ E). simpl.
        exists [WriteCache (md5_hexdigest content)].
        split; [reflexivity|]. split.
        -- intros s [Hs|[]]. injection Hs as <-. split; [discriminate|].
           split; [reflexivity|]. now exists content.
        -- intros Hno. exfalso.
           apply (Hno (md5_hexdigest content)). now left.
    + simpl. exists []. split; [now rewrite app_nil_r|]. split.
      * intros s [].
      * intros _. reflexivity.
Qed.

Lemma unchanged_leaves_cache_witness :
  cache_file (snd (check_for_updates (Body collision_a) fresh))
  = Some (md5_hexdigest collision_a)
  /\ cache_file (snd (check_for_updates (Body collision_a)
                        (snd (check_for_updates (Body collision_a) fresh))))
     = cache_file (snd (check_for_updates (Body collision_a) fresh)).
Proof.
  assert (H : cache_file (snd (check_for_updates (Body collision_a) fresh))
              = Some (md5_hexdigest collision_a)) by reflexivity.
  split; [exact H|].
  exact (proj1 (proj2 (proj1 (unchanged_leaves_cache (Body collision_a)
           (snd (check_for_updates (Body collision_a) fresh)))
           collision_a eq_refl H))).
Defined.

(* ------------------------------------------------------------------ *)
(** ** Claims on the output writer *)

Lemma in_txt_entry (m : movie) (c : char) :
  In c (title m) \/ In c (description m) -> In c (txt_entry m).
Proof.
  unfold txt_entry. rewrite !in_app_iff. tauto.
Qed.

Lemma write_file_unencodable (enc : codec) (text : str) (c : char) :
  In c text -> encodable enc c = false ->
  exists c', encodable enc c' = false
             /\ write_file None enc text = Raised (UnicodeEncodeError c').
Proof.
  intros Hin Hc. unfold write_file.
  destruct (find (fun c => negb (encodable enc c)) text) as [c'|] eqn:E.
  - exists c'. split; [|reflexivity].
    apply find_some in E as [_ E]. now apply negb_true_iff.
  - apply (find_none _ _ E) in Hin. rewrite Hc in Hin. discriminate.
Qed.

(** C10.  With format [txt], once the file is open, a record whose title
    or description holds a code point above U+00FF makes the write raise
    [UnicodeEncodeError].  That exception is not an [IOError]: [save_file]
    neither prints nor leaves through [sys.exit] with
    "Failed to save the file", the exception propagates.  (An [IOError]
    raised by [open] does take the guarded path.) *)
Theorem txt_encoding_error_escapes (movies : list movie) (file_path : str)
        (m : movie) (c : char) :
  In m movies ->
  In c (title m) \/ In c (description m) ->
  (255 < c)%N ->
  (exists c',
      (255 < c')%N
      /\ save_file None movies file_path (txt "txt")
         = (Raised (UnicodeEncodeError c'), [])
      /\ is_IOError (UnicodeEncodeError c') = false)
  /\ (forall msg,
        fst (save_file None movies file_path (txt "txt")) <> SysExit msg)
  /\ (forall e,
        save_file (Some e) movies file_path (txt "txt")
        = (SysExit (txt "Failed to save the file: " ++ e), [])).
Proof.
  intros Hm Hc Hbig.
  assert (Hin : In c (flat_map txt_entry movies)).
  { apply in_flat_map. exists m. split; [exact Hm|]. now apply in_txt_entry. }
  assert (Henc : encodable Latin1 c = false).
  { simpl. apply N.leb_gt. exact Hbig. }
  destruct (write_file_unencodable Latin1 _ c Hin Henc) as (c' & Hc' & Hw).
  assert (Hsave : save_file None movies file_path (txt "txt")
                  = (Raised (UnicodeEncodeError c'), [])).
  { unfold save_file, save_body. simpl str_eqb. cbv iota. now rewrite Hw. }
  split; [|split].
  - exists c'. split; [|split; [exact Hsave | reflexivity]].
    simpl in Hc'. now apply N.leb_gt.
  - intros msg. rewrite Hsave. discriminate.
  - intros e. reflexivity.
Qed.

Lemma txt_encoding_error_escapes_witness :
  exists c',
    (255 < c')%N
    /\ save_file None [ {| rank := 1; title := [8364%N]; description := [] |} ]
                 (txt "./movies.txt") (txt "txt")
       = (Raised (UnicodeEncodeError c'), [])
    /\ is_IOError (UnicodeEncodeError c') = false.
Proof.
  refine (proj1 (txt_encoding_error_escapes
                   [ {| rank := 1; title := [8364%N]; description := [] |} ]
                   (txt "./movies.txt")
                   {| rank := 1; title := [8364%N]; description := [] |}
                   8364%N _ _ _)).
  - now left.
  - left. now left.
  - reflexivity.
Defined.

(** *** The tabular format read back *)

Lemma not_special (c : char) :
  csv_special c = false ->
  (c =? QUOTE)%N = false /\ (c =? COMMA)%N = false
  /\ (c =? CR)%N = false /\ (c =? LF)%N = false.
Proof.
  unfold csv_special. intros H.
  apply orb_false_iff in H as [H Hlf].
  apply orb_false_iff in H as [H Hcr].
  apply orb_false_iff in H as [Hcomma Hquote].
  now repeat split.
Qed.

(** A run of ordinary characters inside a bare field is accumulated. *)
Lemma parse_bare_run (s : str) :
  existsb csv_special s = false ->
  forall field row rows rest,
    csv_parse InField field row rows (s ++ rest)
    = csv_parse InField (rev s ++ field) row rows rest.
Proof.
  induction s as [|c s IH]; intros Hs field row rows rest.
  - reflexivity.
  - simpl in Hs. apply orb_false_iff in Hs as [Hc Hs].
    destruct (not_special c Hc) as (Hq & Hcomma & Hcr & Hlf).
    simpl. rewrite Hcomma, Hcr, Hlf, (IH Hs), <- app_assoc. reflexivity.
Qed.

(** Inside quotes every character is data, a doubled quote is one quote,
    and the closing quote ends the field. *)
Lemma parse_quoted_run (s : str) :
  forall field row rows rest,
    csv_parse InQuoted field row rows (flat_map csv_double s ++ QUOTE :: rest)
    = csv_parse AfterQuote (rev s ++ field) row rows rest.
Proof.
  induction s as [|c s IH]; intros field row rows rest.
  - reflexivity.
  - simpl. unfold csv_double at 1.
    destruct (c =? QUOTE)%N eqn:E.
    + apply N.eqb_eq in E. subst c. simpl.
      rewrite IH, <- app_assoc. reflexivity.
    + simpl. rewrite E, IH, <- app_assoc. reflexivity.
Qed.

(** A written field followed by a comma is read back as that field. *)
Lemma parse_field_comma (st : pstate) (s : str) :
  at_start st ->
  forall row rows rest,
    csv_parse st [] row rows (csv_field s ++ COMMA :: rest)
    = csv_parse StartField [] (s :: row) rows rest.
Proof.
  intros Hst row rows rest. unfold csv_field.
  destruct (existsb csv_special s) eqn:E.
  - replace (([QUOTE] ++ flat_map csv_double s ++ [QUOTE]) ++ COMMA :: rest)
      with (QUOTE :: flat_map csv_double s ++ QUOTE :: COMMA :: rest)
      by (simpl; now rewrite <- app_assoc).
    transitivity
      (csv_parse InQuoted [] row rows
                 (flat_map csv_double s ++ QUOTE :: COMMA :: rest)).
    { destruct Hst as [ -> | [ -> | -> ] ]; reflexivity. }
    rewrite parse_quoted_run. simpl.
    now rewrite app_nil_r, rev_involutive.
  - destruct s as [|c s].
    + destruct Hst as [ -> | [ -> | -> ] ]; reflexivity.
    + simpl in E. apply orb_false_iff in E as [Hc Hs].
      destruct (not_special c Hc) as (Hq & Hcomma & Hcr & Hlf).
      transitivity (csv_parse InField [c] row rows (s ++ COMMA :: rest)).
      { destruct Hst as [ -> | [ -> | -> ] ]; simpl;
          now rewrite Hq, Hcomma, Hcr, Hlf. }
      rewrite (parse_bare_run s Hs). simpl.
      now rewrite rev_app_distr, rev_involutive.
Qed.

(** The last field of a row, followed by the line terminator, closes the
    row. *)
Lemma parse_field_crlf (s : str) :
  forall row rows rest,
    csv_parse StartField [] row rows (csv_field s ++ CR :: LF :: rest)
    = csv_parse StartRecord [] [] (rev (s :: row) :: rows) rest.
Proof.
  intros row rows rest. unfold csv_field.
  destruct (existsb csv_special s) eqn:E.
  - replace (([QUOTE] ++ flat_map csv_double s ++ [QUOTE]) ++ CR :: LF :: rest)
      with (QUOTE :: flat_map csv_double s ++ QUOTE :: CR :: LF :: rest)
      by (simpl; now rewrite <- app_assoc).
    change (csv_parse InQuoted [] row rows
              (flat_map csv_double s ++ QUOTE :: CR :: LF :: rest)
            = csv_parse StartRecord [] [] (rev (s :: row) :: rows) rest).
    rewrite parse_quoted_run. simpl.
    now rewrite app_nil_r, rev_involutive.
  - destruct s as [|c s].
    + reflexivity.
    + simpl in E. apply orb_false_iff in E as [Hc Hs].
      destruct (not_special c Hc) as (Hq & Hcomma & Hcr & Hlf).
      transitivity (csv_parse InField [c] row rows (s ++ CR :: LF :: rest)).
      { simpl. now rewrite Hq, Hcomma, Hcr, Hlf. }
      rewrite (parse_bare_run s Hs). simpl.
      now rewrite rev_app_distr, rev_involutive.
Qed.

Lemma writerow_three (f1 f2 f3 : str) (rest : str) :
  writerow [f1; f2; f3] ++ rest
  = csv_field f1 ++ COMMA :: csv_field f2 ++ COMMA :: csv_field f3
    ++ CR :: LF :: rest.
Proof.
  unfold writerow. destruct f1; simpl join;
    repeat (rewrite <- app_assoc; simpl); reflexivity.
Qed.

(** A written row of three fields is read back as these three fields. *)
Lemma parse_row (st : pstate) (f1 f2 f3 : str) :
  st = StartRecord \/ st = AfterCR ->
  forall rows rest,
    csv_parse st [] [] rows (writerow [f1; f2; f3] ++ rest)
    = csv_parse StartRecord [] [] ([f1; f2; f3] :: rows) rest.
Proof.
  intros Hst rows rest. rewrite writerow_three.
  rewrite parse_field_comma by (destruct Hst; [now left | right; now left]).
  rewrite parse_field_comma by (right; now right).
  rewrite parse_field_crlf. reflexivity.
Qed.

Lemma parse_rows (movies : list movie) :
  forall rows,
    csv_parse StartRecord [] [] rows
              (flat_map (fun m => writerow (csv_row m)) movies)
    = Some (rev rows ++ map csv_row movies).
Proof.
  induction movies as [|m movies IH]; intros rows.
  - simpl. now rewrite app_nil_r.
  - change (flat_map (fun m => writerow (csv_row m)) (m :: movies))
      with (writerow (csv_row m)
            ++ flat_map (fun m => writerow (csv_row m)) movies).
    unfold csv_row at 1.
    rewrite parse_row by now left.
    rewrite IH. simpl. now rewrite <- app_assoc.
Qed.

Lemma csv_reader_text (movies : list movie) :
  csv_reader (csv_text movies) = Some (fieldnames :: map csv_row movies).
Proof.
  unfold csv_reader, csv_text, fieldnames.
  rewrite parse_row by now left.
  now rewrite parse_rows.
Qed.

Lemma str_uint_str (u : Decimal.uint) : str_uint (uint_str u) = Some u.
Proof. induction u; simpl; try reflexivity; now rewrite IHu. Qed.

Lemma nat_of_str_of_nat (n : nat) : nat_of_str (str_of_nat n) = Some n.
Proof.
  unfold nat_of_str, str_of_nat.
  assert (Hnil : Nat.to_uint n <> Decimal.Nil).
  { rewrite <- (DecimalNat.Unsigned.of_to n) at 1.
    rewrite DecimalNat.Unsigned.to_of. apply DecimalFacts.unorm_nonnil. }
  destruct (uint_str (Nat.to_uint n)) eqn:E.
  - destruct (Nat.to_uint n); try discriminate E. now elim Hnil.
  - rewrite <- E, str_uint_str. simpl.
    now rewrite DecimalNat.Unsigned.of_to.
Qed.

Lemma movies_of_rows_csv (movies : list movie) :
  movies_of_rows (map csv_row movies) = Some movies.
Proof.
  induction movies as [|[r t d] movies IH]; simpl.
  - reflexivity.
  - rewrite IH. unfold movie_of_row, csv_row. simpl.
    now rewrite nat_of_str_of_nat.
Qed.

(** C7.  Reading back the text written for the [csv] format gives the
    header row [rank,title,description] and one row per record, and the
    records rebuilt from the rows are the records written, field for
    field; the file [save_file] writes for this format holds that text. *)
Theorem csv_round_trip (movies : list movie) :
  csv_reader (csv_text movies) = Some (fieldnames :: map csv_row movies)
  /\ csv_reparse (csv_text movies) = Some movies
  /\ (forall open_error file_path f,
        fst (save_file open_error movies file_path (txt "csv"))
        = Return (Some f) ->
        content f = csv_text movies /\ csv_reparse (content f) = Some movies).
Proof.
  assert (Hre : csv_reparse (csv_text movies) = Some movies).
  { unfold csv_reparse. rewrite csv_reader_text.
    change (str_list_eqb fieldnames fieldnames) with true.
    apply movies_of_rows_csv. }
  split; [apply csv_reader_text|]. split; [exact Hre|].
  intros open_error file_path f.
  unfold save_file, save_body. simpl str_eqb. cbv iota.
  unfold write_file. destruct open_error as [e|]; [discriminate|].
  destruct (find _ (csv_text movies)); [discriminate|].
  simpl. intros H. injection H as <-. simpl. now split.
Qed.

Lemma csv_round_trip_witness :
  fst (save_file None [M 1 "a,b" "say: hi"] (txt "./movies.csv") (txt "csv"))
  = Return (Some {| encoding := Utf8;
                    content := csv_text [M 1 "a,b" "say: hi"] |})
  /\ csv_reparse (csv_text [M 1 "a,b" "say: hi"]) = Some [M 1 "a,b" "say: hi"].
Proof.
  assert (H : fst (save_file None [M 1 "a,b" "say: hi"]
                             (txt "./movies.csv") (txt "csv"))
              = Return (Some {| encoding := Utf8;
                                content := csv_text [M 1 "a,b" "say: hi"] |}))
    by reflexivity.
  split; [exact H|].
  exact (proj2 (proj2 (proj2 (csv_round_trip [M 1 "a,b" "say: hi"]))
                      None (txt "./movies.csv") _ H)).
Defined.

(* ------------------------------------------------------------------ *)
(** * Part III. Further properties of the code *)
(* ------------------------------------------------------------------ *)

(** ** [sort_entries]: which elements are paired *)

Lemma combine_app_same {A B : Type} (l1 x : list A) (l2 y : list B) :
  List.length l1 = List.length l2 ->
  combine (l1 ++ x) (l2 ++ y) = combine l1 l2 ++ combine x y.
Proof.
  revert l2; induction l1 as [|a l1 IH]; intros [|b l2] H;
    try discriminate H.
  - reflexivity.
  - simpl. f_equal. apply IH. now injection H.
Qed.

Lemma combine_rev_same {A B : Type} (a : list A) (b : list B) :
  List.length a = List.length b ->
  combine (rev a) (rev b) = rev (combine a b).
Proof.
  revert b; induction a as [|x a IH]; intros [|y b] H; try discriminate H.
  - reflexivity.
  - simpl. injection H as H.
    rewrite combine_app_same by (now rewrite !length_rev).
    now rewrite IH.
Qed.

Lemma combine_nil_either {A B : Type} (x : list A) (y : list B) :
  x = [] \/ y = [] -> combine x y = [].
Proof. intros [-> | ->]; [reflexivity | now destruct x]. Qed.

Lemma paired_tails (entries descriptions : list tag) :
  let n := Nat.min (List.length entries) (List.length descriptions) in
  paired entries descriptions
  = rev (combine (skipn (List.length entries - n) entries)
                 (skipn (List.length descriptions - n) descriptions)).
Proof.
  cbv zeta. unfold paired.
  set (n := Nat.min (List.length entries) (List.length descriptions)).
  set (i := List.length entries - n). set (j := List.length descriptions - n).
  rewrite <- (firstn_skipn i entries) at 1.
  rewrite <- (firstn_skipn j descriptions) at 1.
  rewrite !rev_app_distr.
  assert (Hlen : List.length (skipn i entries)
                 = List.length (skipn j descriptions)).
  { rewrite !length_skipn. unfold i, j, n. lia. }
  rewrite combine_app_same by (now rewrite !length_rev).
  rewrite combine_rev_same by exact Hlen.
  rewrite (combine_nil_either (rev (firstn i entries))
                              (rev (firstn j descriptions)));
    [apply app_nil_r|].
  assert (Hij : i = 0 \/ j = 0) by (unfold i, j, n; lia).
  destruct Hij as [H | H]; rewrite H; [left | right]; reflexivity.
Qed.

(** X1.  The records, in rank order, are the last [min T D] titles of the
    page paired with the last [min T D] descriptions of the page, position
    by position, read from the end of the page: what a longer sequence has
    in excess is dropped at its beginning. *)
Theorem records_pair_page_tails (entries descriptions : list tag) :
  let n := Nat.min (List.length entries) (List.length descriptions) in
  map (fun m => (title m, description m))
      (sort_entries entries descriptions (txt "rank"))
  = rev (map (fun p => (strip (get_text (fst p)), strip (get_text (snd p))))
             (combine (skipn (List.length entries - n) entries)
                      (skipn (List.length descriptions - n) descriptions))).
Proof.
  cbv zeta. rewrite sort_entries_by_rank. unfold build_movies.
  rewrite <- map_rev, <- paired_tails, map_map.
  rewrite <- (enumerate_snd (paired entries descriptions) 1) at 2.
  rewrite map_map. apply map_ext. now intros [r [e d]].
Qed.

(** ** [sort_entries]: ties, other sort keys, white space *)

Lemma str_ltb_irrefl (a : str) : str_ltb a a = false.
Proof.
  induction a as [|x a IH]; simpl; [reflexivity|].
  now rewrite N.ltb_irrefl.
Qed.

Section Stability.
Context {A K : Type}.
Variable ltb : K -> K -> bool.
Variable key : A -> K.
Variable le : K -> K -> Prop.
Variable before : A -> A -> Prop.
Hypothesis le_trans : forall x y z, le x y -> le y z -> le x z.
Hypothesis ltb_false : forall x y, ltb y x = false -> le x y.
Hypothesis ltb_true : forall x y, ltb y x = true -> le y x.
Hypothesis ltb_irrefl : forall x, ltb x x = false.

Let Q (x y : A) : Prop := le (key x) (key y) /\ (key x = key y -> before x y).

Lemma insert_by_stable (x : A) (l : list A) :
  StronglySorted Q l -> Forall (before x) l ->
  StronglySorted Q (insert_by ltb key x l).
Proof.
  induction 1 as [|y l Hl IH Hall]; intros Hx; simpl.
  - repeat constructor.
  - inversion Hx as [|? ? Hxy Hxl]; subst.
    destruct (ltb (key y) (key x)) eqn:E.
    + constructor; [now apply IH|].
      apply (Permutation_Forall (x := x :: l)).
      * symmetry. apply insert_by_perm.
      * constructor; [|exact Hall]. split; [now apply ltb_true|].
        intros Heq. rewrite Heq, ltb_irrefl in E. discriminate E.
    + constructor; [now constructor|].
      constructor; [split; [now apply ltb_false | now intros _]|].
      apply Forall_forall. intros z Hz. split.
      * apply (le_trans _ (key y)); [now apply ltb_false|].
        exact (proj1 (proj1 (Forall_forall _ _) Hall z Hz)).
      * intros _. exact (proj1 (Forall_forall _ _) Hxl z Hz).
Qed.

Lemma list_sort_stable (l : list A) :
  StronglySorted before l -> StronglySorted Q (list_sort ltb key l).
Proof.
  induction 1 as [|x l Hl IH Hall]; simpl.
  - constructor.
  - apply insert_by_stable; [exact IH|].
    apply (Permutation_Forall (x := l)); [|exact Hall].
    symmetry. apply list_sort_perm.
Qed.
End Stability.

Lemma seq_strongly_sorted (len start : nat) :
  StronglySorted lt (seq start len).
Proof.
  revert start; induction len as [|len IH]; intros start; simpl.
  - constructor.
  - constructor; [apply IH|]. apply Forall_forall.
    intros x Hx. apply in_seq in Hx. lia.
Qed.

Lemma strongly_sorted_map {A B : Type} (f : A -> B) (R : B -> B -> Prop)
      (l : list A) :
  StronglySorted R (map f l) -> StronglySorted (fun x y => R (f x) (f y)) l.
Proof.
  induction l as [|x l IH]; simpl; intros H.
  - constructor.
  - apply StronglySorted_inv in H as [Hl Hx]. constructor; [now apply IH|].
    apply Forall_forall. intros y Hy.
    apply (proj1 (Forall_forall _ _) Hx). now apply in_map.
Qed.

(** X2.  The sort by title is stable on the records numbered by the
    processor: titles come in non-decreasing order, and of two records
    with the same title the one with the smaller rank comes first. *)
Theorem title_sort_breaks_ties_by_rank (entries descriptions : list tag) :
  StronglySorted
    (fun m1 m2 => title_le m1 m2 /\ (title m1 = title m2 -> rank m1 < rank m2))
    (sort_entries entries descriptions (txt "title")).
Proof.
  unfold sort_entries, sort_movies. simpl str_eqb. cbv iota.
  apply (list_sort_stable str_ltb title lex_le
                          (fun m1 m2 => rank m1 < rank m2)).
  - apply lex_le_trans.
  - intros x y. apply str_ltb_false_le.
  - intros x y. apply str_ltb_true_le.
  - apply str_ltb_irrefl.
  - apply (strongly_sorted_map rank lt).
    rewrite build_movies_rank. apply seq_strongly_sorted.
Qed.

(** X3.  [sort_entries] sorts by title only for the key "title": with any
    other key, known or not, the records stay in rank order. *)
Theorem other_keys_keep_rank_order (entries descriptions : list tag)
        (sort_by : str) :
  sort_by <> txt "title" ->
  sort_entries entries descriptions sort_by
  = sort_entries entries descriptions (txt "rank")
  /\ map rank (sort_entries entries descriptions sort_by)
     = seq 1 (Nat.min (List.length entries) (List.length descriptions)).
Proof.
  intros H.
  assert (E : sort_entries entries descriptions sort_by
              = build_movies entries descriptions).
  { unfold sort_entries, sort_movies. rewrite (str_eqb_neq _ _ H).
    destruct (str_eqb sort_by (txt "rank")); [|reflexivity].
    apply list_sort_ascending.
    pose proof (build_movies_ascending entries descriptions) as Hs.
    induction Hs as [|m ms Hms IH Hhd]; constructor; [exact IH|].
    destruct Hhd as [|m' ms' Hle]; constructor. now apply Nat.ltb_ge. }
  rewrite E, sort_entries_by_rank. split; [reflexivity|].
  apply build_movies_rank.
Qed.

Lemma other_keys_keep_rank_order_witness :
  txt "year" <> txt "title"
  /\ sort_entries [T "B"; T "A"] [T "x"; T "y"] (txt "year")
     = sort_entries [T "B"; T "A"] [T "x"; T "y"] (txt "rank").
Proof.
  assert (H : txt "year" <> txt "title") by discriminate.
  split; [exact H|].
  exact (proj1 (other_keys_keep_rank_order [T "B"; T "A"] [T "x"; T "y"]
                                           (txt "year") H)).
Defined.

Lemma lstrip_spec (s : str) :
  exists front,
    s = front ++ lstrip s /\ forallb isspace front = true
    /\ (forall c rest, lstrip s = c :: rest -> isspace c = false).
Proof.
  induction s as [|c s (front & Hs & Hfront & Hhead)]; simpl.
  - exists []. repeat split. intros c rest H. discriminate H.
  - destruct (isspace c) eqn:E.
    + exists (c :: front). simpl. rewrite E, Hfront.
      split; [now rewrite <- Hs|]. split; [reflexivity | exact Hhead].
    + exists []. repeat split. intros c' rest H. now injection H as <- _.
Qed.

(** [s.strip()] is [s] without a run of white space at each end, and has
    no white space at either end. *)
Lemma strip_spec (s : str) :
  (exists front back,
      s = front ++ strip s ++ back
      /\ forallb isspace front = true /\ forallb isspace back = true)
  /\ stripped (strip s).
Proof.
  unfold strip, rstrip.
  destruct (lstrip_spec s) as (front & Hs & Hfront & Hhead).
  destruct (lstrip_spec (rev (lstrip s))) as (kcab & Hr & Hback & Hlast).
  assert (Hl : lstrip s
               = rev (lstrip (rev (lstrip s))) ++ rev kcab).
  { rewrite <- rev_app_distr, <- Hr. now rewrite rev_involutive. }
  split.
  - exists front, (rev kcab). split; [now rewrite <- Hl|].
    split; [exact Hfront|].
    rewrite forallb_forall in *. intros c Hc. apply Hback.
    now apply in_rev.
  - split.
    + intros c rest H. rewrite H in Hl. simpl in Hl.
      exact (Hhead _ _ Hl).
    + intros c start H. apply (Hlast c (rev start)).
      rewrite <- (rev_involutive (lstrip (rev (lstrip s)))), H.
      now rewrite rev_app_distr.
Qed.

(** X4.  Every record returned by [sort_entries], under any sort key, has
    the stripped text of an element of the title sequence as its title and
    the stripped text of an element of the paragraph sequence as its
    description: neither starts or ends with white space. *)
Theorem records_hold_stripped_text (entries descriptions : list tag)
        (sort_by : str) (m : movie) :
  In m (sort_entries entries descriptions sort_by) ->
  (exists entry desc,
      In entry entries /\ In desc descriptions
      /\ title m = strip (get_text entry)
      /\ description m = strip (get_text desc))
  /\ stripped (title m) /\ stripped (description m).
Proof.
  intros H. apply (Permutation_in _ (sort_movies_perm _ _)) in H.
  unfold build_movies in H. apply in_map_iff in H as ([r [e d]] & <- & H).
  assert (Hp : In (e, d) (paired entries descriptions)).
  { rewrite <- (enumerate_snd (paired entries descriptions) 1).
    now apply (in_map snd) in H. }
  unfold paired in Hp. simpl. split; [|split].
  - exists e, d. repeat split.
    + apply in_combine_l in Hp. now apply in_rev.
    + apply in_combine_r in Hp. now apply in_rev.
  - apply strip_spec.
  - apply strip_spec.
Qed.

Lemma records_hold_stripped_text_witness :
  In (M 1 "A" "x") (sort_entries [T " A "] [T "x  "] (txt "title"))
  /\ stripped (txt "A").
Proof.
  assert (H : In (M 1 "A" "x") (sort_entries [T " A "] [T "x  "] (txt "title")))
    by (now left).
  split; [exact H|].
  exact (proj1 (proj2 (records_hold_stripped_text _ _ _ _ H))).
Defined.

(** ** The keyword filter *)

Lemma starts_with_spec (p s : str) :
  starts_with p s = true <-> exists back, s = p ++ back.
Proof.
  revert s; induction p as [|x p IH]; intros s; simpl.
  - split; [intros _; now exists s | reflexivity].
  - destruct s as [|y s].
    + split; [discriminate | intros [back H]; discriminate H].
    + split.
      * intros H. apply andb_true_iff in H as [Hxy Hp].
        apply N.eqb_eq in Hxy. apply IH in Hp as [back ->].
        exists back. now rewrite Hxy.
      * intros [back H]. injection H as -> ->. apply andb_true_iff.
        split; [apply N.eqb_refl | apply IH; now exists back].
Qed.

Lemma str_in_spec (needle hay : str) :
  str_in needle hay = true <-> exists front back, hay = front ++ needle ++ back.
Proof.
  induction hay as [|c hay IH].
  - simpl. rewrite orb_false_r, starts_with_spec. split.
    + intros [back H]. now exists [], back.
    + intros (front & back & H). destruct front; [now exists back|].
      discriminate H.
  - simpl. rewrite orb_true_iff, starts_with_spec, IH. split.
    + intros [[back H] | (front & back & H)].
      * now exists [], back.
      * exists (c :: front), back. now rewrite H.
    + intros (front & back & H). destruct front as [|c' front].
      * left. now exists back.
      * right. injection H as _ H. now exists front, back.
Qed.

(** X5.  With keyword [K], [main] keeps an element of the title sequence
    exactly when the lowered keyword occurs as a contiguous run of the
    lowered text of the element; the text is the one returned by
    [get_text], before it is stripped. *)
Theorem filter_keeps_substring_matches (lower : str -> str)
        (lower_nil : lower [] = []) (K : str) (entries : list tag)
        (entry : tag) :
  In entry (main_filter lower (Some K) entries)
  <-> In entry entries
      /\ exists front back, lower (get_text entry) = front ++ lower K ++ back.
Proof.
  rewrite (main_filter_spec lower lower_nil), filter_In.
  unfold contains_ci. now rewrite str_in_spec.
Qed.

Lemma filter_keeps_substring_matches_witness :
  ascii_lower [] = []
  /\ In (T "The Godfather")
        (main_filter ascii_lower (Some (txt "GOD"))
                     [T "Heat"; T "The Godfather"]).
Proof.
  split; [reflexivity|].
  apply (filter_keeps_substring_matches ascii_lower eq_refl).
  split; [right; now left|].
  exists (txt "the "), (txt "father"). reflexivity.
Defined.

(** ** [save_file]: when the write succeeds *)

Lemma forallb_pointwise {A : Type} (f g : A -> bool) (l : list A) :
  (forall x, f x = g x) -> forallb f l = forallb g l.
Proof.
  intros H. induction l as [|x l IH]; simpl; [reflexivity|].
  now rewrite H, IH.
Qed.

Lemma forallb_flat_map {A B : Type} (p : B -> bool) (f : A -> list B)
      (l : list A) :
  forallb p (flat_map f l) = forallb (fun x => forallb p (f x)) l.
Proof.
  induction l as [|x l IH]; simpl; [reflexivity|].
  now rewrite forallb_app, IH.
Qed.

Lemma forallb_of_map {A B : Type} (p : B -> bool) (f : A -> B) (l : list A) :
  forallb p (map f l) = forallb (fun x => p (f x)) l.
Proof.
  induction l as [|x l IH]; simpl; [reflexivity|]. now rewrite IH.
Qed.

Lemma forallb_join (p : char -> bool) (sep : str) (l : list str) :
  forallb p sep = true ->
  forallb p (join sep l) = forallb (forallb p) l.
Proof.
  intros Hsep. induction l as [|x l IH]; [reflexivity|].
  destruct l as [|y l].
  - simpl. now rewrite andb_true_r.
  - change (join sep (x :: y :: l)) with (x ++ sep ++ join sep (y :: l)).
    rewrite !forallb_app, Hsep, IH. reflexivity.
Qed.

Lemma uint_str_ascii (u : Decimal.uint) : forallb is_ascii (uint_str u) = true.
Proof. induction u; simpl; auto. Qed.

Lemma hex_char_ascii (x : N) : (x < 16)%N -> is_ascii (hex_char x) = true.
Proof.
  intros H. unfold is_ascii, hex_char. apply N.ltb_lt.
  destruct (N.ltb_spec x 10); lia.
Qed.

(** What the three formats add to the titles and descriptions is ASCII:
    a property of code points that holds of all ASCII holds of the text
    written exactly when it holds of every title and description. *)
Section WrittenText.
Variable p : char -> bool.
Hypothesis p_ascii : forall c, is_ascii c = true -> p c = true.

Lemma ascii_text (s : str) : forallb is_ascii s = true -> forallb p s = true.
Proof.
  rewrite !forallb_forall. intros H c Hc. now apply p_ascii, H.
Qed.

Ltac ascii_literals :=
  repeat match goal with
         | |- context [forallb p (txt ?s)] =>
             rewrite (ascii_text (txt s) eq_refl)
         | |- context [forallb p (str_of_nat ?n)] =>
             rewrite (ascii_text (str_of_nat n) (uint_str_ascii _))
         | |- context [forallb p [?a]] =>
             rewrite (ascii_text [a] eq_refl)
         | |- context [forallb p [?a; ?b]] =>
             rewrite (ascii_text [a; b] eq_refl)
         end.

Lemma txt_entry_text (m : movie) :
  forallb p (txt_entry m) = forallb p (title m) && forallb p (description m).
Proof.
  unfold txt_entry. rewrite !forallb_app. ascii_literals.
  simpl. now rewrite !andb_true_r.
Qed.

Lemma json_escape_text (c : char) : forallb p (json_escape c) = p c.
Proof.
  unfold json_escape.
  repeat match goal with
         | |- context [(c =? ?k)%N] =>
             destruct (N.eqb_spec c k) as [-> | ?];
             [rewrite ascii_text by reflexivity; symmetry;
              now apply p_ascii|]
         end.
  destruct (N.ltb_spec c 32) as [Hc | Hc].
  - assert (H1 : (c / 16 < 16)%N).
    { apply N.Div0.div_lt_upper_bound. lia. }
    assert (H2 : (c mod 16 < 16)%N) by (apply N.mod_lt; lia).
    rewrite ascii_text.
    + symmetry. apply p_ascii, N.ltb_lt. lia.
    + simpl. rewrite !hex_char_ascii by assumption. reflexivity.
  - simpl. now rewrite andb_true_r.
Qed.

Lemma json_string_text (s : str) : forallb p (json_string s) = forallb p s.
Proof.
  unfold json_string. rewrite !forallb_app, forallb_flat_map.
  ascii_literals. rewrite andb_true_r. simpl.
  apply forallb_pointwise. intros c. apply json_escape_text.
Qed.

Lemma json_movie_text (m : movie) :
  forallb p (json_movie m) = forallb p (title m) && forallb p (description m).
Proof.
  unfold json_movie, json_member.
  rewrite !forallb_app, !json_string_text. ascii_literals.
  simpl. now rewrite !andb_true_r.
Qed.

Lemma json_dump_text (movies : list movie) :
  forallb p (json_dump movies) = all_text p movies.
Proof.
  unfold all_text. destruct movies as [|m movies].
  - now rewrite (ascii_text (json_dump []) eq_refl).
  - change (json_dump (m :: movies))
      with (txt "[" ++ [LF]
            ++ join (txt "," ++ [LF]) (map json_movie (m :: movies))
            ++ [LF] ++ txt "]").
    generalize (m :: movies) as ms. intros ms.
    rewrite !forallb_app.
    rewrite forallb_join by (now apply ascii_text).
    ascii_literals. rewrite forallb_of_map, andb_true_r. simpl andb.
    apply forallb_pointwise. intros m'. apply json_movie_text.
Qed.

Lemma csv_field_text (s : str) : forallb p (csv_field s) = forallb p s.
Proof.
  unfold csv_field. destruct (existsb csv_special s); [|reflexivity].
  rewrite !forallb_app, forallb_flat_map. ascii_literals.
  rewrite andb_true_r. simpl.
  apply forallb_pointwise. intros c. unfold csv_double.
  destruct (N.eqb_spec c QUOTE) as [-> | _].
  - rewrite ascii_text by reflexivity. symmetry. now apply p_ascii.
  - simpl. now rewrite andb_true_r.
Qed.

Lemma writerow_text (f1 f2 f3 : str) :
  forallb p (writerow [f1; f2; f3])
  = forallb p f1 && forallb p f2 && forallb p f3.
Proof.
  rewrite <- (app_nil_r (writerow [f1; f2; f3])), writerow_three.
  change (COMMA :: csv_field f2 ++ COMMA :: csv_field f3 ++ [CR; LF])
    with ([COMMA] ++ csv_field f2 ++ [COMMA] ++ csv_field f3 ++ [CR; LF]).
  rewrite !forallb_app, !csv_field_text. ascii_literals.
  simpl. now rewrite !andb_true_r, andb_assoc.
Qed.

Lemma csv_text_text (movies : list movie) :
  forallb p (csv_text movies) = all_text p movies.
Proof.
  unfold csv_text, all_text, fieldnames.
  rewrite forallb_app, writerow_text. ascii_literals. simpl andb.
  rewrite forallb_flat_map. apply forallb_pointwise. intros m.
  unfold csv_row. rewrite writerow_text. now ascii_literals.
Qed.

Lemma format_text_text (f : format_choice) (movies : list movie) :
  forallb p (format_text f movies) = all_text p movies.
Proof.
  destruct f; simpl.
  - rewrite forallb_flat_map. apply forallb_pointwise. intros m.
    apply txt_entry_text.
  - apply json_dump_text.
  - apply csv_text_text.
Qed.
End WrittenText.

Lemma ascii_encodable (enc : codec) (c : char) :
  is_ascii c = true -> encodable enc c = true.
Proof.
  unfold is_ascii. intros H. apply N.ltb_lt in H. destruct enc; simpl.
  - apply N.leb_le. lia.
  - apply negb_true_iff, andb_false_iff. left. apply N.leb_gt. lia.
Qed.

(** A code point of the written text that cannot be encoded comes from a
    title or a description. *)
Lemma unencodable_from_record (enc : codec) (f : format_choice)
      (movies : list movie) (c : char) :
  In c (format_text f movies) -> encodable enc c = false ->
  exists m, In m movies /\ In c (title m ++ description m).
Proof.
  intros Hin Hc.
  set (p := fun x : char => is_ascii x || negb (x =? c)%N).
  assert (p_ascii : forall x, is_ascii x = true -> p x = true).
  { intros x Hx. unfold p. now rewrite Hx. }
  assert (Hpc : p c = false).
  { unfold p. rewrite N.eqb_refl. simpl. rewrite orb_false_r.
    destruct (is_ascii c) eqn:E; [|reflexivity].
    now rewrite (ascii_encodable enc c E) in Hc. }
  assert (Htext : forallb p (format_text f movies) = false).
  { destruct (forallb p (format_text f movies)) eqn:E; [|reflexivity].
    rewrite forallb_forall in E. now rewrite (E c Hin) in Hpc. }
  rewrite (format_text_text p p_ascii) in Htext. unfold all_text in Htext.
  clear Hin. induction movies as [|m movies IH]; [discriminate Htext|].
  simpl in Htext. apply andb_false_iff in Htext as [E | E].
  - exists m. split; [now left|]. rewrite <- forallb_app in E.
    destruct (existsb (fun x => negb (p x)) (title m ++ description m)) eqn:X.
    + apply existsb_exists in X as (x & Hx & Hpx).
      apply negb_true_iff in Hpx. unfold p in Hpx.
      apply orb_false_iff in Hpx as [_ Hpx].
      apply negb_false_iff, N.eqb_eq in Hpx. now subst x.
    + exfalso. assert (Hall : forallb p (title m ++ description m) = true).
      { apply forallb_forall. intros x Hx.
        destruct (p x) eqn:Px; [reflexivity|].
        assert (Hex : existsb (fun x => negb (p x))
                              (title m ++ description m) = true).
        { apply existsb_exists. exists x. now rewrite Px. }
        rewrite Hex in X. discriminate X. }
      rewrite Hall in E. discriminate E.
  - destruct (IH E) as (m' & Hm' & Hin'). exists m'. split; [now right|].
    exact Hin'.
Qed.

Lemma write_file_result (enc : codec) (text : str) :
  (forallb (encodable enc) text = true ->
   write_file None enc text = Return {| encoding := enc; content := text |})
  /\ (forallb (encodable enc) text = false ->
      exists c, In c text /\ encodable enc c = false
                /\ write_file None enc text = Raised (UnicodeEncodeError c)).
Proof.
  unfold write_file.
  destruct (find (fun c => negb (encodable enc c)) text) as [c|] eqn:E.
  - apply find_some in E as [Hin Hc]. apply negb_true_iff in Hc. split.
    + intros H. rewrite forallb_forall in H. rewrite (H c Hin) in Hc.
      discriminate Hc.
    + intros _. now exists c.
  - split; [reflexivity|]. intros H. exfalso.
    assert (Hall : forallb (encodable enc) text = true).
    { apply forallb_forall. intros c Hc.
      apply (find_none _ _ E) in Hc. now apply negb_false_iff. }
    rewrite Hall in H. discriminate H.
Qed.

Lemma save_body_format (open_error : option str) (movies : list movie)
      (f : format_choice) :
  save_body open_error movies (format_name f)
  = match write_file open_error (format_codec f) (format_text f movies) with
    | Return file => Return (Some file)
    | SysExit msg => SysExit msg
    | Raised x => Raised x
    end.
Proof. now destruct f. Qed.



Lemma printed_display (movies : list movie) :
  printed_text (display_list movies) = flat_map txt_entry movies.
Proof.
  unfold printed_text, display_list.
  induction movies as [|m movies IH]; [reflexivity|].
  change (flat_map txt_entry (m :: movies))
    with (txt_entry m ++ flat_map txt_entry movies).
  rewrite <- IH.
  match goal with
  | |- flat_map ?g (flat_map ?h (m :: movies)) = _ =>
      change (flat_map h (m :: movies)) with (h m ++ flat_map h movies);
      rewrite (flat_map_app g)
  end.
  f_equal. unfold txt_entry. simpl.
  repeat (rewrite <- app_assoc; simpl). reflexivity.
Qed.

(** X7.  What [display_list] prints, each [print] ending its line, is
    character for character the text that [save_file] writes for the [txt]
    format. *)
Theorem display_is_txt_file (movies : list movie) (file_path : str)
        (open_error : option str) (f : file) :
  fst (save_file open_error movies file_path (txt "txt")) = Return (Some f) ->
  content f = printed_text (display_list movies)
  /\ encoding f = Latin1.
Proof.
  unfold save_file, save_body, write_file. simpl str_eqb. cbv iota.
  destruct open_error as [e|]; [discriminate|].
  destruct (find _ (flat_map txt_entry movies)); [discriminate|].
  simpl. intros H. injection H as <-. simpl. split; [|reflexivity].
  symmetry. apply printed_display.
Qed.

Lemma display_is_txt_file_witness :
  content {| encoding := Latin1; content := flat_map txt_entry [M 1 "A" "x"] |}
  = printed_text (display_list [M 1 "A" "x"]).
Proof.
  exact (proj1 (display_is_txt_file [M 1 "A" "x"] (txt "./movies.txt") None
                                    _ eq_refl)).
Defined.

(** ** The stored fingerprint *)

Lemma le_bytes_length (w : nat) (x : Z) : List.length (MD5.le_bytes w x) = w.
Proof.
  revert x; induction w as [|w IH]; intros x; simpl; [reflexivity|].
  now rewrite IH.
Qed.

Lemma le_bytes_range (w : nat) (x : Z) :
  Forall (fun b => 0 <= b < 256)%Z (MD5.le_bytes w x).
Proof.
  revert x; induction w as [|w IH]; intros x; simpl; constructor.
  - change 255%Z with (Z.ones 8). rewrite Z.land_ones by lia.
    apply Z.mod_pos_bound. reflexivity.
  - apply IH.
Qed.

Lemma hex_digit_char (y : Z) :
  (0 <= y < 16)%Z -> In (MD5.hex_digit y) (txt "0123456789abcdef").
Proof.
  intros H.
  assert (E : (y = 0 \/ y = 1 \/ y = 2 \/ y = 3 \/ y = 4 \/ y = 5 \/ y = 6
               \/ y = 7 \/ y = 8 \/ y = 9 \/ y = 10 \/ y = 11 \/ y = 12
               \/ y = 13 \/ y = 14 \/ y = 15)%Z) by lia.
  repeat (destruct E as [E | E]; [subst y; vm_compute; tauto|]).
  subst y. vm_compute. tauto.
Qed.

Lemma hex_chars (bs : list Z) :
  Forall (fun b => 0 <= b < 256)%Z bs ->
  List.length (MD5.hex bs) = 2 * List.length bs
  /\ Forall (fun c => In c (txt "0123456789abcdef")) (MD5.hex bs).
Proof.
  induction 1 as [|b bs Hb Hbs [IHlen IHall]]; simpl.
  - split; [reflexivity | constructor].
  - split; [rewrite IHlen; lia|].
    constructor; [|constructor; [|exact IHall]].
    + apply hex_digit_char. rewrite Z.shiftr_div_pow2 by lia.
      change (2 ^ 4)%Z with 16%Z. split.
      * apply Z.div_pos; lia.
      * apply Z.div_lt_upper_bound; lia.
    + apply hex_digit_char. change 15%Z with (Z.ones 4).
      rewrite Z.land_ones by lia. apply Z.mod_pos_bound. reflexivity.
Qed.

(** X8.  Whatever the bytes fetched, the fingerprint is 32 characters
    long and made of the digits and the lower-case letters a to f; after a
    run of the detector on a fetched body the cache file is such a text. *)
Theorem fingerprint_is_32_hex (content : bytes) (w : world) :
  List.length (md5_hexdigest content) = 32
  /\ Forall (fun c => In c (txt "0123456789abcdef")) (md5_hexdigest content)
  /\ cache_file (snd (check_for_updates (Body content) w))
     = Some (md5_hexdigest content).
Proof.
  unfold md5_hexdigest, MD5.digest. cbv zeta.
  set (st := fold_left MD5.compress _ MD5.init).
  assert (Hrange : Forall (fun b => 0 <= b < 256)%Z
                     (MD5.le_bytes 4 (MD5.a st) ++ MD5.le_bytes 4 (MD5.b st)
                      ++ MD5.le_bytes 4 (MD5.c st)
                      ++ MD5.le_bytes 4 (MD5.d st))).
  { repeat (apply Forall_app; split); apply le_bytes_range. }
  destruct (hex_chars _ Hrange) as [Hlen Hall].
  split; [|split; [exact Hall | apply check_for_updates_stores]].
  rewrite !length_app, !le_bytes_length in Hlen. exact Hlen.
Qed.

(** ** Consecutive runs of the detector *)

Lemma check_each_cons (content : bytes) (bodies : list bytes) (w : world) :
  check_each (content :: bodies) w
  = (fst (check_for_updates (Body content) w)
       :: fst (check_each bodies (snd (check_for_updates (Body content) w))),
     snd (check_each bodies (snd (check_for_updates (Body content) w)))).
Proof.
  cbn [check_each].
  destruct (check_for_updates (Body content) w) as [r w'].
  cbn [fst snd]. now destruct (check_each bodies w').
Qed.

Lemma check_reports (content : bytes) (w : world) (stored : str) :
  cache_file w = Some stored ->
  fst (check_for_updates (Body content) w)
  = Return (negb (str_eqb stored (md5_hexdigest content))).
Proof.
  intros H. unfold check_for_updates. rewrite H.
  now destruct (str_eqb stored (md5_hexdigest content)).
Qed.

(** X9.  Over consecutive runs of the detector, each on the cache file
    left by the run before, every run after the first reports changed
    exactly when the digest of its body differs from the digest of the
    body before it; there are as many reports as runs, and the cache file
    ends with the digest of the last body. *)
Theorem consecutive_checks (bodies : list bytes) (w : world) :
  List.length (fst (check_each bodies w)) = List.length bodies
  /\ (forall i before content,
         nth_error bodies i = Some before ->
         nth_error bodies (S i) = Some content ->
         nth_error (fst (check_each bodies w)) (S i)
         = Some (Return (negb (str_eqb (md5_hexdigest before)
                                       (md5_hexdigest content)))))
  /\ (forall content front,
         bodies = front ++ [content] ->
         cache_file (snd (check_each bodies w))
         = Some (md5_hexdigest content)).
Proof.
  revert w; induction bodies as [|b bodies IH]; intros w.
  - split; [reflexivity|]. split.
    + intros i before content H. destruct i; discriminate H.
    + intros content front H. destruct front; discriminate H.
  - rewrite check_each_cons. cbn [fst snd].
    destruct (IH (snd (check_for_updates (Body b) w))) as (Hlen & Hnext & Hlast).
    split; [cbn [Datatypes.length]; now rewrite Hlen|]. split.
    + intros i before content Hi Hsi. destruct i as [|i].
      * cbn [nth_error] in Hi, Hsi. injection Hi as <-.
        destruct bodies as [|b' bodies]; [discriminate Hsi|].
        cbn [nth_error] in Hsi. injection Hsi as <-.
        rewrite check_each_cons. cbn [fst nth_error].
        f_equal. apply check_reports. apply check_for_updates_stores.
      * cbn [nth_error] in Hi, Hsi. cbn [nth_error].
        now apply (Hnext i before).
    + intros content front H. destruct front as [|b0 front].
      * cbn [app] in H. injection H as -> ->. cbn [check_each snd].
        apply check_for_updates_stores.
      * cbn [app] in H. injection H as _ H. now apply (Hlast content front).
Qed.

Lemma consecutive_checks_witness :
  nth_error (fst (check_each [collision_a; collision_b; []] fresh)) 1
  = Some (Return false)
  /\ nth_error (fst (check_each [collision_a; collision_b; []] fresh)) 2
     = Some (Return true).
Proof.
  destruct (consecutive_checks [collision_a; collision_b; []] fresh)
    as (_ & H & _).
  split.
  - rewrite (H 0 collision_a collision_b eq_refl eq_refl).
    vm_compute. reflexivity.
  - rewrite (H 1 collision_b [] eq_refl eq_refl).
    vm_compute. reflexivity.
Defined.

(** ** [main] *)

Lemma print_all_world (lines : list str) (w : world) :
  cache_file (print_all lines w) = cache_file w
  /\ trace (print_all lines w) = trace w ++ map Print lines.
Proof.
  unfold print_all. revert w; induction lines as [|s lines IH]; intros w.
  - simpl. now rewrite app_nil_r.
  - cbn [fold_left map]. destruct (IH (print s w)) as [Hc Ht].
    rewrite Hc, Ht. simpl. now rewrite <- app_assoc.
Qed.

Lemma save_file_format (open_error : option str) (movies : list movie)
      (file_path : str) (f : format_choice) :
  (exists file,
      save_file open_error movies file_path (format_name f)
      = (Return (Some file), [txt "List saved to " ++ file_path])
      /\ file = {| encoding := format_codec f;
                   content := format_text f movies |})
  \/ (exists r,
         save_file open_error movies file_path (format_name f) = (r, [])
         /\ forall v, r <> Return v).
Proof.
  unfold save_file. rewrite save_body_format. unfold write_file.
  destruct open_error as [e|].
  - right. eexists. split; [reflexivity | discriminate].
  - destruct (find _ (format_text f movies)).
    + right. eexists. split; [reflexivity | discriminate].
    + left. eexists. split; reflexivity.
Qed.

Section MainFacts.
Variable lower : str -> str.

(** X10.  With [--check-updates], when the cache file holds the digest of
    the body fetched by the detector, [main] stops with
    "The list has not been updated. Exiting.": it saves no file, prints
    only "No updates found.", leaves the cache file as it is, and the
    result depends neither on the page nor on the other options. *)
Theorem unchanged_run_stops (a : Args.t) (e : env) (w : world)
        (content : bytes) :
  Args.check_updates a = true ->
  update_fetch e = Body content ->
  cache_file w = Some (md5_hexdigest content) ->
  main lower a e w
  = {| status := SysExit (txt "The list has not been updated. Exiting.");
       final := print (txt "No updates found.") (emit ReadCache w);
       saved := None |}
  /\ cache_file (final (main lower a e w)) = cache_file w.
Proof.
  intros Hflag Hfetch Hcache. unfold main, main_check.
  rewrite Hflag, Hfetch, (check_for_updates_same _ _ Hcache).
  split; reflexivity.
Qed.

(** X11.  Without [--check-updates], [main] neither reads nor writes the
    cache file: its content is unchanged, and the only effects of the run
    are [print] calls. *)
Theorem cache_untouched_without_flag (a : Args.t) (e : env) (w : world) :
  Args.check_updates a = false ->
  cache_file (final (main lower a e w)) = cache_file w
  /\ exists lines,
       trace (final (main lower a e w)) = trace w ++ map Print lines.
Proof.
  intros Hflag. unfold main, main_check. rewrite Hflag.
  destruct (load_site (site_fetch e)) as [[entries descriptions]|msg|x];
    cbn [final].
  2, 3: split; [reflexivity | exists []; simpl; now rewrite app_nil_r].
  set (sorted := main_list lower _ _ entries descriptions).
  set (w2 := if Args.verbose a then _ else w).
  set (w3 := if Args.display a then _ else w2).
  assert (H2 : cache_file w2 = cache_file w
               /\ exists l2, trace w2 = trace w ++ map Print l2).
  { unfold w2. destruct (Args.verbose a).
    - split; [reflexivity|]. eexists [_]. reflexivity.
    - split; [reflexivity|]. exists []. simpl. now rewrite app_nil_r. }
  destruct H2 as (Hc2 & l2 & Ht2).
  assert (H3 : cache_file w3 = cache_file w
               /\ exists l3, trace w3 = trace w ++ map Print l3).
  { unfold w3. destruct (Args.display a).
    - destruct (print_all_world (display_list sorted) w2) as [Hc Ht].
      split; [congruence|]. exists (l2 ++ display_list sorted).
      now rewrite Ht, Ht2, map_app, app_assoc.
    - split; [exact Hc2 | now exists l2]. }
  destruct H3 as (Hc3 & l3 & Ht3).
  destruct (save_file _ sorted _ _) as [[f|msg|x] printed]; cbn [final];
    destruct (print_all_world printed w3) as [Hc Ht];
    (split; [congruence|]); exists (l3 ++ printed);
    now rewrite Ht, Ht3, map_app, app_assoc.
Qed.

(** X12.  A run of [main] returns normally exactly when it has written
    the output file in full: the file then holds the text of the chosen
    format for the filtered and sorted list of the page, in the encoding
    of that format, and the last thing printed is "List saved to" with
    the output path.  In every other case no file is reported saved. *)
Theorem returns_iff_file_saved (a : Args.t) (e : env) (w : world) :
  (status (main lower a e w) = Return tt ->
   exists entries descriptions,
     site_fetch e = Page entries descriptions
     /\ saved (main lower a e w)
        = Some {| encoding := format_codec (Args.format a);
                  content :=
                    format_text (Args.format a)
                      (main_list lower (Args.filter a)
                                 (sort_name (Args.sort a))
                                 entries descriptions) |}
     /\ exists events,
          trace (final (main lower a e w))
          = events ++ [Print (txt "List saved to " ++ Args.output a)])
  /\ (status (main lower a e w) <> Return tt ->
      saved (main lower a e w) = None)
  /\ (saved (main lower a e w) <> None ->
      status (main lower a e w) = Return tt).
Proof.
  unfold main.
  destruct (main_check a e w) as [[[]|msg|x] w1]; cbn [status saved final].
  2, 3: split; [discriminate | split; [reflexivity | congruence]].
  destruct (site_fetch e) as [entries descriptions|msg]; cbn [load_site].
  2: cbn [status saved]; split;
       [discriminate | split; [reflexivity | congruence]].
  set (sorted := main_list lower _ _ entries descriptions).
  set (w2 := if Args.verbose a then _ else w1).
  set (w3 := if Args.display a then _ else w2).
  destruct (save_file_format (output_open_error e) sorted (Args.output a)
                             (Args.format a))
    as [(file & Hs & ->) | (r & Hs & Hr)]; rewrite Hs.
  - cbn [status saved final]. split; [|split; [congruence | reflexivity]].
    intros _. exists entries, descriptions. repeat split.
    destruct (print_all_world [txt "List saved to " ++ Args.output a] w3)
      as [_ Ht].
    exists (trace w3). exact Ht.
  - destruct r as [v|msg|x]; [now elim (Hr v)| |]; cbn [status saved];
      (split; [discriminate | split; [reflexivity | congruence]]).
Qed.

(** X13.  With [--check-updates], once the detector has fetched a body
    the cache file holds the digest of that body at the end of the run,
    however the run ends: the fingerprint is stored before the page is
    loaded and the list saved, and a failure of either does not undo
    it. *)
Theorem fingerprint_stored_whatever_follows (a : Args.t) (e : env)
        (w : world) (content : bytes) :
  Args.check_updates a = true ->
  update_fetch e = Body content ->
  cache_file (final (main lower a e w)) = Some (md5_hexdigest content).
Proof.
  intros Hflag Hfetch. unfold main, main_check. rewrite Hflag, Hfetch.
  pose proof (check_for_updates_stores content w) as Hst.
  destruct (check_for_updates (Body content) w) as [[[|]|msg|x] w1];
    cbn [snd] in Hst; cbn [final]; try exact Hst.
  destruct (load_site (site_fetch e)) as [[entries descriptions]|msg|x];
    cbn [final]; try exact Hst.
  set (sorted := main_list lower _ _ entries descriptions).
  set (w2 := if Args.verbose a then _ else w1).
  set (w3 := if Args.display a then _ else w2).
  assert (H2 : cache_file w2 = cache_file w1)
    by (unfold w2; now destruct (Args.verbose a)).
  assert (H3 : cache_file w3 = cache_file w1).
  { unfold w3. destruct (Args.display a); [|exact H2].
    now rewrite (proj1 (print_all_world _ _)). }
  destruct (save_file _ sorted _ _) as [[f|msg|x] printed]; cbn [final];
    rewrite (proj1 (print_all_world _ _)); congruence.
Qed.

(** X14.  When the page cannot be loaded, [main] saves nothing and does
    not return normally; if the run got as far as loading it, it leaves
    through [sys.exit] with "Failed to load the site:" and the message of
    the request, having printed nothing more. *)
Theorem unreachable_site_stops (a : Args.t) (e : env) (w : world)
        (msg : str) :
  site_fetch e = Unreachable msg ->
  saved (main lower a e w) = None
  /\ status (main lower a e w) <> Return tt
  /\ (forall w1,
        main_check a e w = (Return tt, w1) ->
        main lower a e w
        = {| status := SysExit (txt "Failed to load the site: " ++ msg);
             final := w1; saved := None |}).
Proof.
  intros Hsite. unfold main. rewrite Hsite. cbn [load_site].
  destruct (main_check a e w) as [[[]|m|x] w1]; cbn [status saved].
  - split; [reflexivity|]. split; [discriminate|].
    intros w1' H. now injection H as <-.
  - split; [reflexivity|]. split; [discriminate|]. intros w1' H.
    discriminate H.
  - split; [reflexivity|]. split; [discriminate|]. intros w1' H.
    discriminate H.
Qed.

(** X15.  With [--verbose], the count printed is the number of title
    elements of the page, before the filter is applied; it is the first
    thing [main] itself prints. *)
Theorem verbose_counts_before_filter (a : Args.t) (e : env) (w : world)
        (entries descriptions : list tag) :
  Args.verbose a = true ->
  Args.check_updates a = false ->
  site_fetch e = Page entries descriptions ->
  exists events,
    trace (final (main lower a e w))
    = trace w
      ++ Print (txt "Loaded " ++ str_of_nat (List.length entries)
                ++ txt " entries from " ++ Args.url a)
      :: events.
Proof.
  intros Hv Hflag Hsite. unfold main, main_check.
  rewrite Hflag, Hsite, Hv. cbn [load_site].
  set (sorted := main_list lower _ _ entries descriptions).
  set (w2 := print _ w).
  set (w3 := if Args.display a then _ else w2).
  assert (H3 : exists l3, trace w3 = trace w2 ++ map Print l3).
  { unfold w3. destruct (Args.display a).
    - eexists. apply print_all_world.
    - exists []. simpl. now rewrite app_nil_r. }
  destruct H3 as (l3 & Ht3).
  destruct (save_file _ sorted _ _) as [[f|m|x] printed]; cbn [final];
    rewrite (proj2 (print_all_world _ _)), Ht3;
    exists (map Print l3 ++ map Print printed);
    unfold w2; simpl; now rewrite <- !app_assoc.
Qed.
End MainFacts.

Lemma unchanged_run_stops_witness :
  Args.check_updates checking_args = true
  /\ update_fetch sample_env = Body collision_a
  /\ cache_file cached = Some (md5_hexdigest collision_a)
  /\ status (main ascii_lower checking_args sample_env cached)
     = SysExit (txt "The list has not been updated. Exiting.")
  /\ saved (main ascii_lower checking_args sample_env cached) = None.
Proof.
  pose proof (unchanged_run_stops ascii_lower checking_args sample_env cached
                collision_a eq_refl eq_refl eq_refl) as [H _].
  repeat split; now rewrite H.
Defined.

Lemma cache_untouched_without_flag_witness :
  Args.check_updates sample_args = false
  /\ cache_file (final (main ascii_lower sample_args sample_env cached))
     = cache_file cached.
Proof.
  split; [reflexivity|].
  exact (proj1 (cache_untouched_without_flag ascii_lower sample_args
                  sample_env cached eq_refl)).
Defined.

Lemma fingerprint_stored_whatever_follows_witness :
  Args.check_updates checking_args = true
  /\ update_fetch offline_env = Body collision_a
  /\ status (main ascii_lower checking_args offline_env fresh)
     = SysExit (txt "Failed to load the site: timed out")
  /\ cache_file (final (main ascii_lower checking_args offline_env fresh))
     = Some (md5_hexdigest collision_a).
Proof.
  split; [reflexivity|]. split; [reflexivity|]. split; [reflexivity|].
  exact (fingerprint_stored_whatever_follows ascii_lower checking_args
           offline_env fresh collision_a eq_refl eq_refl).
Defined.

Lemma unreachable_site_stops_witness :
  site_fetch offline_env = Unreachable (txt "timed out")
  /\ main ascii_lower sample_args offline_env fresh
     = {| status := SysExit (txt "Failed to load the site: timed out");
          final := fresh; saved := None |}.
Proof.
  split; [reflexivity|].
  exact (proj2 (proj2 (unreachable_site_stops ascii_lower sample_args
                         offline_env fresh (txt "timed out") eq_refl))
               fresh eq_refl).
Defined.

Lemma verbose_counts_before_filter_witness :
  Args.verbose sample_args = true
  /\ Args.check_updates sample_args = false
  /\ site_fetch sample_env = Page page_titles page_descriptions
  /\ exists events,
       trace (final (main ascii_lower sample_args sample_env fresh))
       = trace fresh
         ++ Print (txt "Loaded 3 entries from http://example.org/") :: events.
Proof.
  split; [reflexivity|]. split; [reflexivity|]. split; [reflexivity|].
  exact (verbose_counts_before_filter ascii_lower sample_args sample_env fresh
           page_titles page_descriptions eq_refl eq_refl eq_refl).
Defined.

Lemma returns_iff_file_saved_witness :
  status (main ascii_lower sample_args sample_env fresh) = Return tt
  /\ exists entries descriptions,
       site_fetch sample_env = Page entries descriptions
       /\ saved (main ascii_lower sample_args sample_env fresh)
          = Some {| encoding := Utf8;
                    content :=
                      csv_text (main_list ascii_lower (Some (txt "b"))
                                          (txt "title") entries descriptions) |}.
Proof.
  assert (H : status (main ascii_lower sample_args sample_env fresh)
              = Return tt) by reflexivity.
  split; [exact H|].
  destruct (proj1 (returns_iff_file_saved ascii_lower sample_args sample_env
                     fresh) H) as (entries & descriptions & Hs & Hf & _).
  exists entries, descriptions. split; [exact Hs | exact Hf].
Defined.

(** ** The [json] format keeps the list *)

Lemma hex_char_inj (x y : N) :
  (x < 16)%N -> (y < 16)%N -> hex_char x = hex_char y -> x = y.
Proof.
  unfold hex_char. intros Hx Hy.
  destruct (N.ltb_spec x 10), (N.ltb_spec y 10); lia.
Qed.

Lemma json_escape_shape (c : char) : escaped c (json_escape c).
Proof.
  unfold json_escape.
  repeat match goal with
         | |- context [(c =? ?k)%N] =>
             destruct (N.eqb_spec c k) as [-> | ?];
             [apply escaped_short; simpl; tauto|]
         end.
  destruct (N.ltb_spec c 32).
  - now apply escaped_hex.
  - now apply escaped_plain.
Qed.

Lemma escaped_inj (a b : char) (ea eb x y : str) :
  escaped a ea -> escaped b eb -> ea ++ x = eb ++ y -> a = b /\ x = y.
Proof.
  intros Ha Hb.
  destruct Ha as [la Ha | Ha | Ha1 Ha2]; destruct Hb as [lb Hb | Hb | Hb1 Hb2];
    simpl; intros H.
  - injection H as Hl Hxy. subst lb. split; [|exact Hxy].
    simpl in Ha, Hb.
    repeat (destruct Ha as [Ha | Ha];
            [inversion Ha; subst; clear Ha;
             repeat (destruct Hb as [Hb | Hb]; [inversion Hb; reflexivity|]);
             contradiction|]).
    contradiction.
  - injection H as Hl _. subst la. simpl in Ha.
    repeat (destruct Ha as [Ha | Ha]; [discriminate Ha|]). contradiction.
  - injection H as Hb _. now elim Hb2.
  - injection H as Hl _. subst lb. simpl in Hb.
    repeat (destruct Hb as [Hb | Hb]; [discriminate Hb|]). contradiction.
  - injection H as H1 H2 Hxy. split; [|exact Hxy].
    apply hex_char_inj in H1;
      [|apply N.Div0.div_lt_upper_bound; lia..].
    apply hex_char_inj in H2; [|apply N.mod_lt; lia..].
    rewrite (N.Div0.div_mod a 16), (N.Div0.div_mod b 16). congruence.
  - injection H as Hb _. now elim Hb2.
  - injection H as Ha _. now elim Ha2.
  - injection H as Ha _. now elim Ha2.
  - injection H as Hab Hxy. now split.
Qed.

Lemma escaped_head (c : char) (e x y : str) :
  escaped c e -> QUOTE :: x <> e ++ y.
Proof.
  intros [l Hl | Hc | Hc1 Hc2]; simpl; intros H; injection H as H _;
    try discriminate H. now elim Hc1.
Qed.

(** The escaped body of a string, up to its closing quote, determines the
    string and what follows it. *)
Lemma json_body_inj (s1 s2 t1 t2 : str) :
  flat_map json_escape s1 ++ QUOTE :: t1
  = flat_map json_escape s2 ++ QUOTE :: t2 ->
  s1 = s2 /\ t1 = t2.
Proof.
  revert s2; induction s1 as [|a s1 IH]; intros [|b s2]; simpl; intros H.
  - injection H as H. now split.
  - exfalso. rewrite <- app_assoc in H.
    exact (escaped_head _ _ _ _ (json_escape_shape b) H).
  - exfalso. rewrite <- app_assoc in H. symmetry in H.
    exact (escaped_head _ _ _ _ (json_escape_shape a) H).
  - rewrite <- !app_assoc in H.
    destruct (escaped_inj _ _ _ _ _ _ (json_escape_shape a)
                          (json_escape_shape b) H) as [-> H'].
    destruct (IH _ H') as [-> ->]. now split.
Qed.

Lemma json_string_inj (s1 s2 t1 t2 : str) :
  json_string s1 ++ t1 = json_string s2 ++ t2 -> s1 = s2 /\ t1 = t2.
Proof.
  unfold json_string. simpl. rewrite <- !app_assoc. simpl.
  intros H. injection H as H. now apply json_body_inj.
Qed.

(** A run of digits followed by something that is not a digit determines
    the digits. *)
Lemma uint_str_inj (u1 u2 : Decimal.uint) (c1 c2 : char) (t1 t2 : str) :
  is_digit c1 = false -> is_digit c2 = false ->
  uint_str u1 ++ c1 :: t1 = uint_str u2 ++ c2 :: t2 ->
  u1 = u2 /\ c1 :: t1 = c2 :: t2.
Proof.
  intros H1 H2. revert u2.
  induction u1 as [|u1 IH|u1 IH|u1 IH|u1 IH|u1 IH|u1 IH|u1 IH|u1 IH|u1 IH|u1 IH];
    intros [|u2|u2|u2|u2|u2|u2|u2|u2|u2|u2]; simpl; intros H;
    first [ now split
          | injection H as Hc Ht;
            first [ discriminate Hc
                  | subst; vm_compute in H1; discriminate H1
                  | subst; vm_compute in H2; discriminate H2 ]
          | injection H as H; destruct (IH _ H) as [-> E]; now split ].
Qed.

Lemma str_of_nat_inj (n1 n2 : nat) (c1 c2 : char) (t1 t2 : str) :
  is_digit c1 = false -> is_digit c2 = false ->
  str_of_nat n1 ++ c1 :: t1 = str_of_nat n2 ++ c2 :: t2 ->
  n1 = n2 /\ c1 :: t1 = c2 :: t2.
Proof.
  intros H1 H2 H. destruct (uint_str_inj _ _ _ _ _ _ H1 H2 H) as [E Ht].
  split; [|exact Ht].
  rewrite <- (DecimalNat.Unsigned.of_to n1), <- (DecimalNat.Unsigned.of_to n2).
  now rewrite E.
Qed.

Lemma json_movie_inj (m1 m2 : movie) (t1 t2 : str) :
  json_movie m1 ++ t1 = json_movie m2 ++ t2 -> m1 = m2 /\ t1 = t2.
Proof.
  destruct m1 as [r1 ti1 d1], m2 as [r2 ti2 d2].
  unfold json_movie, json_member, json_string.
  cbn [rank title description].
  repeat (rewrite <- !app_assoc; cbn [app]).
  intros H.
  repeat (injection H as H).
  apply str_of_nat_inj in H as [-> H]; [|reflexivity..].
  repeat (injection H as H).
  apply json_body_inj in H as [-> H].
  repeat (injection H as H).
  apply json_body_inj in H as [-> H].
  repeat (injection H as H).
  now split.
Qed.

Lemma json_join_inj (l1 l2 : list movie) (m1 m2 : movie) (t1 t2 : str) :
  join (txt "," ++ [LF]) (map json_movie (m1 :: l1)) ++ LF :: t1
  = join (txt "," ++ [LF]) (map json_movie (m2 :: l2)) ++ LF :: t2 ->
  m1 :: l1 = m2 :: l2.
Proof.
  revert l2 m1 m2; induction l1 as [|m1' l1 IH]; intros [|m2' l2] m1 m2 H.
  - cbn [map join] in H. now apply json_movie_inj in H as [-> _].
  - cbn [map] in H.
    change (join ?sep (?x :: ?y :: ?l)) with (x ++ sep ++ join sep (y :: l))
      in H.
    cbn [join] in H. rewrite <- !app_assoc in H.
    apply json_movie_inj in H as [_ H]. discriminate H.
  - cbn [map] in H.
    change (join ?sep (?x :: ?y :: ?l)) with (x ++ sep ++ join sep (y :: l))
      in H.
    cbn [join] in H. rewrite <- !app_assoc in H.
    apply json_movie_inj in H as [_ H]. discriminate H.
  - cbn [map] in H.
    change (join ?sep (?x :: ?y :: ?l)) with (x ++ sep ++ join sep (y :: l))
      in H.
    rewrite <- !app_assoc in H.
    apply json_movie_inj in H as [-> H].
    apply app_inv_head in H. apply app_inv_head in H.
    f_equal. apply (IH l2 m1' m2'). exact H.
Qed.

Lemma json_dump_inj (l1 l2 : list movie) :
  json_dump l1 = json_dump l2 -> l1 = l2.
Proof.
  destruct l1 as [|m1 l1], l2 as [|m2 l2]; intros H.
  - reflexivity.
  - discriminate H.
  - discriminate H.
  - change (txt "[" ++ [LF]
            ++ join (txt "," ++ [LF]) (map json_movie (m1 :: l1))
            ++ [LF] ++ txt "]"
            = txt "[" ++ [LF]
              ++ join (txt "," ++ [LF]) (map json_movie (m2 :: l2))
              ++ [LF] ++ txt "]") in H.
    apply app_inv_head in H. apply app_inv_head in H.
    now apply json_join_inj in H.
Qed.

(** X16.  The [json] format loses nothing: two lists of records for which
    [save_file] writes the same file are the same list, rank for rank,
    title for title and description for description. *)
Theorem json_file_keeps_list (movies1 movies2 : list movie)
        (path1 path2 : str) (open_error1 open_error2 : option str)
        (f : file) :
  fst (save_file open_error1 movies1 path1 (txt "json")) = Return (Some f) ->
  fst (save_file open_error2 movies2 path2 (txt "json")) = Return (Some f) ->
  movies1 = movies2.
Proof.
  unfold save_file, save_body, write_file. simpl str_eqb. cbv iota.
  destruct open_error1 as [e1|]; [discriminate|].
  destruct open_error2 as [e2|]; [discriminate|].
  destruct (find _ (json_dump movies1)); [discriminate|].
  destruct (find _ (json_dump movies2)); [discriminate|].
  simpl. intros H1 H2. rewrite <- H1 in H2. injection H2 as H.
  symmetry. now apply json_dump_inj.
Qed.

Lemma json_file_keeps_list_witness :
  fst (save_file None [M 1 "A" "x"] (txt "a.json") (txt "json"))
  = Return (Some {| encoding := Utf8; content := json_dump [M 1 "A" "x"] |})
  /\ [M 1 "A" "x"] = [M 1 "A" "x"].
Proof.
  assert (H : fst (save_file None [M 1 "A" "x"] (txt "a.json") (txt "json"))
              = Return (Some {| encoding := Utf8;
                                content := json_dump [M 1 "A" "x"] |}))
    by reflexivity.
  split; [exact H|].
  exact (json_file_keeps_list _ _ _ _ _ _ _ H H).
Defined.

(** ** An empty list *)

Lemma sort_entries_nil (entries descriptions : list tag) (sort_by : str) :
  entries = [] \/ descriptions = [] ->
  sort_entries entries descriptions sort_by = [].
Proof.
  intros H. unfold sort_entries, build_movies, paired.
  rewrite combine_nil_either.
  - unfold sort_movies. simpl.
    destruct (str_eqb sort_by (txt "title")); [reflexivity|].
    now destruct (str_eqb sort_by (txt "rank")).
  - destruct H as [-> | ->]; [left | right]; reflexivity.
Qed.


